(** * odisc: the OSC-to-MIDI matching and translation engine

    A shallow embedding of [src/index.ts] (the dispatcher: the bootstrap of
    the configuration, [loadMappings], [handleOscMessage],
    [sendQuadCortexPreset], [main]) and of the table view of
    [src/routes/+page.svelte] ([parseCsv], [loadCsvFile]), with the
    properties the specification states about the dispatcher and further
    properties read off the code.

    Conventions of the embedding.
    - A JavaScript value that the dispatcher handles is [undefined], a
      number or a string ([jsval]).  Rule objects are objects whose
      properties were filled by [loadMappings] from CSV cells, so every
      property of a rule is a [jsval]: the loader stores a number for any
      cell that [Number] accepts, whatever the column.
    - Strings are Rocq strings, one character per code unit.  Only ASCII
      characters are given a meaning (digits, letters, white space).
    - A finite number is carried as an exact decimal [m * 10^e]; rounding
      to binary64 and overflow are outside the model.  [NaN] and the two
      infinities are values of their own.
    - Console output, OSC sends and MIDI sends are recorded, in program
      order, in a trace of [effect]s. *)

From Stdlib Require Import ZArith String Ascii List Bool Lia DecimalString.
From stdpp Require Import gmap strings list.

Open Scope string_scope.
Open Scope Z_scope.

(** ** Strings: the [String.prototype] methods the dispatcher calls *)

Module Str.

(** [s.endsWith(c)] for a one-character [c]. *)
Fixpoint endsWith (s : string) (c : ascii) : bool :=
  match s with
  | EmptyString => false
  | String a EmptyString => Ascii.eqb a c
  | String _ rest => endsWith rest c
  end.

(** [s.slice(0, -1)]: everything but the last character. *)
Fixpoint slice_0_m1 (s : string) : string :=
  match s with
  | EmptyString => EmptyString
  | String _ EmptyString => EmptyString
  | String a rest => String a (slice_0_m1 rest)
  end.

(** [s.split(sep)] for a one-character separator: never the empty list,
    and two adjacent separators give an empty token. *)
Fixpoint split (sep : ascii) (s : string) : list string :=
  match s with
  | EmptyString => [EmptyString]
  | String a rest =>
      if Ascii.eqb a sep then EmptyString :: split sep rest
      else match split sep rest with
           | [] => [String a EmptyString]
           | w :: ws => String a w :: ws
           end
  end.

(** White space as [trim] and the numeric conversions see it (ASCII part):
    TAB, LF, VT, FF, CR and SPACE. *)
Definition is_space (a : ascii) : bool :=
  let n := nat_of_ascii a in
  ((9 <=? n) && (n <=? 13))%nat || (n =? 32)%nat.

Fixpoint trimStart (s : string) : string :=
  match s with
  | String a rest => if is_space a then trimStart rest else s
  | EmptyString => EmptyString
  end.

(** [trimEnd]: a character is dropped when it is white space and all that
    follows it was dropped. *)
Fixpoint trimEnd (s : string) : string :=
  match s with
  | EmptyString => EmptyString
  | String a rest =>
      match trimEnd rest with
      | EmptyString => if is_space a then EmptyString else String a EmptyString
      | t => String a t
      end
  end.

Definition trim (s : string) : string := trimEnd (trimStart s).

Definition is_digit (a : ascii) : bool :=
  let n := nat_of_ascii a in ((48 <=? n) && (n <=? 57))%nat.

Definition digit_val (a : ascii) : Z := Z.of_nat (nat_of_ascii a) - 48.

Fixpoint all_digits (s : string) : bool :=
  match s with
  | EmptyString => true
  | String a rest => is_digit a && all_digits rest
  end.

(** Value of a string of decimal digits, most significant first. *)
Fixpoint digits_acc (acc : Z) (s : string) : Z :=
  match s with
  | EmptyString => acc
  | String a rest => digits_acc (acc * 10 + digit_val a) rest
  end.

Definition digits_value (s : string) : Z := digits_acc 0 s.

(** Longest prefix of decimal digits, and what follows it. *)
Fixpoint span_digits (s : string) : string * string :=
  match s with
  | String a rest =>
      if is_digit a then let (d, r) := span_digits rest in (String a d, r)
      else (EmptyString, s)
  | EmptyString => (EmptyString, EmptyString)
  end.

(** [c.toUpperCase()] on one character (ASCII letters). *)
Definition toUpperCase1 (a : ascii) : ascii :=
  let n := nat_of_ascii a in
  if ((97 <=? n) && (n <=? 122))%nat then ascii_of_nat (n - 32) else a.

Fixpoint repeat0 (n : nat) : string :=
  match n with O => EmptyString | S k => String "0" (repeat0 k) end.

(** First [n] characters and the rest. *)
Fixpoint splitAt (n : nat) (s : string) : string * string :=
  match n, s with
  | S k, String a rest => let (l, r) := splitAt k rest in (String a l, r)
  | _, _ => (EmptyString, s)
  end.

(** A string of digits without its trailing zeros, and how many there were. *)
Fixpoint strip_trailing_zeros (s : string) : string * nat :=
  match s with
  | EmptyString => (EmptyString, O)
  | String a rest =>
      match strip_trailing_zeros rest with
      | (EmptyString, k) =>
          if Ascii.eqb a "0" then (EmptyString, S k) else (String a EmptyString, k)
      | (t, k) => (String a t, k)
      end
  end.

End Str.

(** ** Numbers and the conversions between numbers and strings *)

Inductive number : Type :=
| NaN
| Infinity (negative : bool)
| Dec (m : Z) (e : Z).              (* the number m * 10^e *)

Definition of_Z (z : Z) : number := Dec z 0.

Definition number_isNaN (n : number) : bool :=
  match n with NaN => true | _ => false end.

(** [ToBoolean] on a number: zero and [NaN] are false. *)
Definition number_truthy (n : number) : bool :=
  match n with
  | NaN => false
  | Infinity _ => true
  | Dec m _ => negb (m =? 0)
  end.

Definition string_of_nonneg (z : Z) : string :=
  NilZero.string_of_uint (N.to_uint (Z.to_N z)).

(** [Number::toString] (radix 10) on a positive decimal with digit string
    [ds] (no trailing zero, [k] digits) and value [0.ds * 10^n]. *)
Definition format_decimal (ds : string) (n : Z) : string :=
  let k := Z.of_nat (String.length ds) in
  if (k <=? n) && (n <=? 21) then
    ds ++ Str.repeat0 (Z.to_nat (n - k))
  else if (0 <? n) && (n <=? 21) then
    let (l, r) := Str.splitAt (Z.to_nat n) ds in l ++ "." ++ r
  else if (-6 <? n) && (n <=? 0) then
    "0." ++ Str.repeat0 (Z.to_nat (- n)) ++ ds
  else
    let x := n - 1 in
    let ex := (if x <? 0 then "e-" else "e+") ++ string_of_nonneg (Z.abs x) in
    match ds with
    | String d EmptyString => String d ex
    | String d rest => String d ("." ++ rest ++ ex)
    | EmptyString => ex
    end.

(** [String(n)] for a number [n]. *)
Definition number_to_string (x : number) : string :=
  match x with
  | NaN => "NaN"
  | Infinity false => "Infinity"
  | Infinity true => "-Infinity"
  | Dec m e =>
      if m =? 0 then "0"
      else
        let (ds, z) := Str.strip_trailing_zeros (string_of_nonneg (Z.abs m)) in
        let n := Z.of_nat (String.length ds) + Z.of_nat z + e in
        (if m <? 0 then "-" else "") ++ format_decimal ds n
  end.

(** *** Reading a number from a string: [parseFloat] and [Number] *)

Module Parse.

Definition is_e (a : ascii) : bool := Ascii.eqb a "e" || Ascii.eqb a "E".

(** ExponentPart: [e] or [E], an optional sign, at least one digit. *)
Definition exponent_part (s : string) : option (Z * string) :=
  match s with
  | String c rest =>
      if is_e c then
        let (neg, body) :=
          match rest with
          | String "+" r => (false, r)
          | String "-" r => (true, r)
          | _ => (false, rest)
          end in
        let (d, r) := Str.span_digits body in
        match d with
        | EmptyString => None
        | _ => Some (if neg : bool then - Str.digits_value d else Str.digits_value d, r)
        end
      else None
  | EmptyString => None
  end.

Fixpoint drop (n : nat) (s : string) : string :=
  match n, s with
  | S k, String _ rest => drop k rest
  | _, _ => s
  end.

(** Mantissa digits [d1 . d2] followed by an optional exponent part. *)
Definition with_exponent (d1 d2 rest : string) : number * string :=
  let m := Str.digits_value (d1 ++ d2) in
  let scale := Z.of_nat (String.length d2) in
  match exponent_part rest with
  | Some (x, r) => (Dec m (x - scale), r)
  | None => (Dec m (- scale), rest)
  end.

(** Longest prefix that is a StrUnsignedDecimalLiteral, with its value:
    [Infinity], [digits], [digits.], [digits.digits] or [.digits], each of
    the last four with an optional exponent part. *)
Definition unsigned_decimal (s : string) : option (number * string) :=
  if String.prefix "Infinity" s then Some (Infinity false, drop 8 s)
  else
    let (d1, r1) := Str.span_digits s in
    match d1, r1 with
    | String _ _, String "." r =>
        let (d2, r2) := Str.span_digits r in Some (with_exponent d1 d2 r2)
    | String _ _, _ => Some (with_exponent d1 "" r1)
    | EmptyString, String "." r =>
        let (d2, r2) := Str.span_digits r in
        match d2 with
        | EmptyString => None
        | _ => Some (with_exponent "" d2 r2)
        end
    | EmptyString, _ => None
    end.

Definition negate (n : number) : number :=
  match n with
  | NaN => NaN
  | Infinity b => Infinity (negb b)
  | Dec m e => Dec (- m) e
  end.

(** Longest prefix that is a StrDecimalLiteral (optional sign). *)
Definition decimal_literal (s : string) : option (number * string) :=
  match s with
  | String "+" r => unsigned_decimal r
  | String "-" r =>
      match unsigned_decimal r with
      | Some (n, r') => Some (negate n, r')
      | None => None
      end
  | _ => unsigned_decimal s
  end.

(** Digit value in a radix up to 16. *)
Definition radix_digit (radix : Z) (a : ascii) : option Z :=
  let n := Z.of_nat (nat_of_ascii a) in
  let v := if (48 <=? n) && (n <=? 57) then n - 48
           else if (97 <=? n) && (n <=? 102) then n - 87
           else if (65 <=? n) && (n <=? 70) then n - 55
           else 16 in
  if v <? radix then Some v else None.

Fixpoint radix_acc (radix acc : Z) (s : string) : option Z :=
  match s with
  | EmptyString => Some acc
  | String a rest =>
      match radix_digit radix a with
      | Some v => radix_acc radix (acc * radix + v) rest
      | None => None
      end
  end.

(** NonDecimalIntegerLiteral: [0x], [0o] or [0b] (either case) and at least
    one digit of that radix, nothing else. *)
Definition non_decimal_literal (s : string) : option number :=
  match s with
  | String "0" (String p (String a rest)) =>
      let radix :=
        if Ascii.eqb p "x" || Ascii.eqb p "X" then Some 16
        else if Ascii.eqb p "o" || Ascii.eqb p "O" then Some 8
        else if Ascii.eqb p "b" || Ascii.eqb p "B" then Some 2
        else None in
      match radix with
      | Some r =>
          match radix_acc r 0 (String a rest) with
          | Some v => Some (Dec v 0)
          | None => None
          end
      | None => None
      end
  | _ => None
  end.

End Parse.

(** [parseFloat(s)]: skips leading white space, reads the longest decimal
    literal, ignores what follows; [NaN] when there is no such prefix. *)
Definition parseFloat (s : string) : number :=
  match Parse.decimal_literal (Str.trimStart s) with
  | Some (n, _) => n
  | None => NaN
  end.

(** [Number(s)]: the whole trimmed string has to be a numeric literal; the
    empty or blank string is 0. *)
Definition Number_of_string (s : string) : number :=
  let t := Str.trim s in
  if String.eqb t "" then Dec 0 0
  else match Parse.non_decimal_literal t with
       | Some n => n
       | None =>
           match Parse.decimal_literal t with
           | Some (n, EmptyString) => n
           | _ => NaN
           end
       end.

(** Leading decimal digits as an integer: [parseInt(s, 10)] on a string of
    digits. *)
Definition parseInt_digits (s : string) : Z := Str.digits_value s.

(** ** Values *)

Inductive jsval : Type :=
| JUndef
| JNum (n : number)
| JStr (s : string).

(** [ToBoolean]. *)
Definition truthy (v : jsval) : bool :=
  match v with
  | JUndef => false
  | JNum n => number_truthy n
  | JStr s => negb (String.eqb s "")
  end.

(** [String(v)]. *)
Definition ToString (v : jsval) : string :=
  match v with
  | JUndef => "undefined"
  | JNum n => number_to_string n
  | JStr s => s
  end.

(** [typeof v === 'number']. *)
Definition is_number (v : jsval) : bool :=
  match v with JNum _ => true | _ => false end.

(** [v !== undefined]. *)
Definition is_defined (v : jsval) : bool :=
  match v with JUndef => false | _ => true end.

(** [v === s] for a string [s]. *)
Definition is_string (v : jsval) (s : string) : bool :=
  match v with JStr t => String.eqb t s | _ => false end.

(** [a[0]]. *)
Definition first (args : list jsval) : jsval := hd JUndef args.

(** A rule: the object [loadMappings] builds from one CSV row. *)
Abbreviation Mapping := (gmap string jsval).

(** Property access [m.k]; a property that is not there reads [undefined]. *)
Definition field (m : Mapping) (k : string) : jsval := default JUndef (m !! k).

(** ** State and effects *)

(** The two module-level variables of the dispatcher. *)
Record session : Type := {
  mappings : list Mapping;
  currentSetlist : number
}.

(** [midiOut.send(kind, fields)]. *)
Inductive midimsg : Type :=
| NoteOn (note velocity channel : jsval)
| NoteOff (note velocity channel : jsval)
| ControlChange (controller value channel : jsval)
| ProgramChange (number channel : jsval).

(** An argument appended to an outbound OSC message: the object
    [{ type: 'f', value }] or a plain value. *)
Inductive oscarg : Type :=
| FloatArg (value : number)
| PlainArg (v : jsval).

Record oscmsg : Type := {
  osc_address : jsval;
  osc_args : list oscarg
}.

Inductive level : Type := Log | Warn | Error.

(** What a console call reports, with the values it interpolates. *)
Inductive report : Type :=
| Received (address normalizedAddress : string) (args : list jsval)
| SetlistUpdated (setlist : number)
| InvalidSetlistArgument
| NoMappingFound (normalizedAddress : string) (args : list jsval)
| SentNoteOn (channel note velocity : jsval)
| SentNoteOff (channel note velocity : jsval)
| SentCC (channel controller value : jsval)
| SentProgramChange (channel value : jsval)
| InvalidPresetFormat (presetId : string)
| InvalidBank (bank : Z)
| SendingPreset (setlist : jsval) (presetId : string) (program : Z)
| SentPreset (setlist : jsval) (program : Z) (channel : jsval)
| LoadFailed (code : string)
| MidiOutputSet (name : string)
| MidiDisabled
| MidiInitFailed (name : string)
| Closing.

Inductive effect : Type :=
| Console (l : level) (r : report)
| OscSend (m : oscmsg)
| MidiSend (m : midimsg).

(** How a call ends: it returns, or a [TypeError] escapes it. *)
Inductive completion : Type := Normal | TypeError.

Definition midi_of (t : list effect) : list midimsg :=
  omap (fun e => match e with MidiSend m => Some m | _ => None end) t.

Definition osc_of (t : list effect) : list oscmsg :=
  omap (fun e => match e with OscSend m => Some m | _ => None end) t.

Definition warnings_of (t : list effect) : list report :=
  omap (fun e => match e with Console Warn r => Some r | _ => None end) t.

(** ** The preset encoder: [sendQuadCortexPreset] *)

(** [[A-H]] under the [i] flag. *)
Definition is_A_H (a : ascii) : bool :=
  let n := nat_of_ascii (Str.toUpperCase1 a) in ((65 <=? n) && (n <=? 72))%nat.

(** [presetId.match(/^(\d+)([A-H])$/i)]: the two groups, or [None] for
    [null].  The digits are taken greedily; the letter that follows is no
    digit, so no shorter run of digits can match. *)
Definition preset_match (presetId : string) : option (string * ascii) :=
  let (digits, rest) := Str.span_digits presetId in
  match digits, rest with
  | String _ _, String letter EmptyString =>
      if is_A_H letter then Some (digits, letter) else None
  | _, _ => None
  end.

(** [presetChar.charCodeAt(0) - 'A'.charCodeAt(0)] after [toUpperCase]. *)
Definition presetOffset (letter : ascii) : Z :=
  Z.of_nat (nat_of_ascii (Str.toUpperCase1 letter)) - 65.

Definition programChangeNumber (bank : Z) (letter : ascii) : Z :=
  (bank - 1) * 8 + presetOffset letter.

Definition sendQuadCortexPreset (presetId channel setlist : jsval)
  : completion * list effect :=
  match presetId with
  | JStr id =>
      match preset_match id with
      | None => (Normal, [Console Error (InvalidPresetFormat id)])
      | Some (digits, letter) =>
          let bank := parseInt_digits digits in
          if (bank <? 1) || (32 <? bank) then
            (Normal, [Console Error (InvalidBank bank)])
          else
            let pc := programChangeNumber bank letter in
            (Normal,
             [ Console Log (SendingPreset setlist id pc);
               MidiSend (ControlChange (JNum (of_Z 0)) (JNum (of_Z 0)) channel);
               MidiSend (ControlChange (JNum (of_Z 32)) setlist channel);
               MidiSend (ProgramChange (JNum (of_Z pc)) channel);
               Console Log (SentPreset setlist pc channel) ])
      end
  | _ => (TypeError, [])            (* presetId.match is not a function *)
  end.

(** ** Loading the table: [loadMappings] *)

(** One cell, as the ['data'] handler stores it. *)
Definition convert_cell (value : string) : jsval :=
  if negb (String.eqb value "") && negb (number_isNaN (Number_of_string value))
  then JNum (Number_of_string value)
  else if String.eqb value "" then JUndef else JStr value.

(** One row object of the CSV parser becomes one rule, key by key. *)
Definition mapping_of_row (data : gmap string string) : Mapping :=
  convert_cell <$> data.

(** What the read stream delivers: the rows, then ['end'] or ['error']. *)
Inductive stream_end : Type := End | StreamError (code : string).

Record csv_stream : Type := {
  rows : list (gmap string string);
  ending : stream_end
}.

(** The promise [loadMappings] returns: resolved with the rules in row
    order, or rejected with the stream's error. *)
Definition loadMappings (file : csv_stream) : string + list Mapping :=
  match ending file with
  | End => inr (map mapping_of_row (rows file))
  | StreamError code => inl code
  end.

(** ** The dispatcher: [handleOscMessage] *)

(** [address.endsWith('/') ? address.slice(0, -1) : address]. *)
Definition normalize (address : string) : string :=
  if Str.endsWith address "/" then Str.slice_0_m1 address else address.

(** [xs.every((x, i) => p x i)], the index counted from [i]. *)
Fixpoint every_from {A : Type} (p : A -> nat -> bool) (i : nat) (xs : list A) : bool :=
  match xs with
  | [] => true
  | x :: rest => p x i && every_from p (S i) rest
  end.

(** [expected === receivedArgs[i]]; an index out of range reads
    [undefined], which no string equals. *)
Definition same_at (receivedArgs : list string) (expected : string) (i : nat) : bool :=
  match receivedArgs !! i with
  | Some r => String.eqb expected r
  | None => false
  end.

(** The predicate handed to [mappings.find]. *)
Definition rule_matches (normalizedAddress : string) (args : list jsval)
  (m : Mapping) : bool :=
  if negb (is_string (field m "osc_in_address") normalizedAddress) then false
  else if truthy (field m "osc_in_args") then
    let expectedArgs := Str.split " " (ToString (field m "osc_in_args")) in
    let receivedArgs := map ToString args in
    if negb (Nat.eqb (length expectedArgs) (length receivedArgs)) then false
    else every_from (same_at receivedArgs) 0 expectedArgs
  else true.

(** [mappings.find(...)]: the resolver. *)
Definition resolve (table : list Mapping) (normalizedAddress : string)
  (args : list jsval) : option Mapping :=
  List.find (rule_matches normalizedAddress args) table.

(** The arguments of the outbound OSC message. *)
Definition finalArgs (mapping : Mapping) (args : list jsval) : list oscarg :=
  let out := field mapping "osc_out_args" in
  if is_defined out && negb (String.eqb (Str.trim (ToString out)) "") then
    map (fun arg =>
           let num := parseFloat arg in
           if number_isNaN num then PlainArg (JStr arg) else FloatArg num)
        (Str.split " " (ToString out))
  else
    map (fun arg =>
           match arg with
           | JNum n => FloatArg n
           | _ => PlainArg arg
           end)
        args.

(** The OSC output block.  The callback of [oscClient.send] runs after the
    handler has returned and only logs; it is not part of the trace. *)
Definition osc_output (mapping : Mapping) (args : list jsval) : list effect :=
  if truthy (field mapping "osc_out_address") then
    [OscSend {| osc_address := field mapping "osc_out_address";
                osc_args := finalArgs mapping args |}]
  else [].

(** [mapping.midi_value !== undefined ? mapping.midi_value
     : (typeof args[0] === 'number' ? args[0] : 0)]. *)
Definition midi_value_of (mapping : Mapping) (args : list jsval) : jsval :=
  if is_defined (field mapping "midi_value") then field mapping "midi_value"
  else if is_number (first args) then first args else JNum (of_Z 0).

(** A MIDI output handle; [None] stands for [null]. *)
Inductive MidiOutput : Type := Device (name : string).

(** The MIDI output block. *)
Definition midi_output (currentSetlist : number) (mapping : Mapping)
  (args : list jsval) (midiOut : option MidiOutput) : completion * list effect :=
  match midiOut with
  | None => (Normal, [])
  | Some _ =>
      if truthy (field mapping "midi_type") && is_defined (field mapping "midi_channel")
      then
        let channel := field mapping "midi_channel" in
        let midi_type := field mapping "midi_type" in
        if is_string midi_type "note_on" then
          if is_defined (field mapping "midi_note")
             && is_defined (field mapping "midi_velocity")
          then (Normal,
                [ MidiSend (NoteOn (field mapping "midi_note")
                                   (field mapping "midi_velocity") channel);
                  Console Log (SentNoteOn channel (field mapping "midi_note")
                                          (field mapping "midi_velocity")) ])
          else (Normal, [])
        else if is_string midi_type "note_off" then
          if is_defined (field mapping "midi_note")
             && is_defined (field mapping "midi_velocity")
          then (Normal,
                [ MidiSend (NoteOff (field mapping "midi_note")
                                    (field mapping "midi_velocity") channel);
                  Console Log (SentNoteOff channel (field mapping "midi_note")
                                           (field mapping "midi_velocity")) ])
          else (Normal, [])
        else if is_string midi_type "cc" then
          if is_defined (field mapping "midi_controller") then
            let value := midi_value_of mapping args in
            (Normal,
             [ MidiSend (ControlChange (field mapping "midi_controller") value channel);
               Console Log (SentCC channel (field mapping "midi_controller") value) ])
          else (Normal, [])
        else if is_string midi_type "pc" then
          let value := midi_value_of mapping args in
          (Normal,
           [ MidiSend (ProgramChange value channel);
             Console Log (SentProgramChange channel value) ])
        else if is_string midi_type "qc_preset" then
          if truthy (field mapping "qc_preset_id") then
            let setlist :=
              if is_defined (field mapping "setlist") then field mapping "setlist"
              else JNum currentSetlist in
            sendQuadCortexPreset (field mapping "qc_preset_id") channel setlist
          else (Normal, [])
        else (Normal, [])
      else (Normal, [])
  end.

(** [handleOscMessage([address, ...args], oscClient, midiOut)] run in
    session [s]: how it ends, the session it leaves, what it did. *)
Definition handleOscMessage (s : session) (address : string) (args : list jsval)
  (midiOut : option MidiOutput) : completion * session * list effect :=
  let normalizedAddress := normalize address in
  let received := Console Log (Received address normalizedAddress args) in
  if String.eqb normalizedAddress "/setlist" then
    match first args with
    | JNum n =>
        (Normal, {| mappings := mappings s; currentSetlist := n |},
         [received; Console Log (SetlistUpdated n)])
    | _ => (Normal, s, [received; Console Warn InvalidSetlistArgument])
    end
  else
    match resolve (mappings s) normalizedAddress args with
    | None =>
        (Normal, s, [received; Console Log (NoMappingFound normalizedAddress args)])
    | Some mapping =>
        let (c, midi) := midi_output (currentSetlist s) mapping args midiOut in
        (c, s, (received :: osc_output mapping args ++ midi)%list)
    end.

(** ** The process: [main] and the handlers it installs *)

Inductive process : Type :=
| Running (s : session) (midiOut : option MidiOutput)
| Exited (code : Z).

(** [new MidiOutput(name)] inside its [try]: [opens name] tells whether the
    constructor returns; when it throws, [midiOut] stays [null]. *)
Definition open_midi (opens : string -> bool) (name : string)
  : option MidiOutput * list effect :=
  if opens name then (Some (Device name), [Console Log (MidiOutputSet name)])
  else (None, [Console Error (MidiInitFailed name)]).

Definition init_midi (MIDI_OUTPUT_NAME : string) (midiOutputs : list string)
  (opens : string -> bool) : option MidiOutput * list effect :=
  if negb (String.eqb MIDI_OUTPUT_NAME "")
     && bool_decide (MIDI_OUTPUT_NAME ∈ midiOutputs)
  then open_midi opens MIDI_OUTPUT_NAME
  else match midiOutputs with
       | first_output :: _ => open_midi opens first_output
       | [] => (None, [Console Warn MidiDisabled])
       end.

(** Initial values of the module-level variables. *)
Definition startup : session := {| mappings := []; currentSetlist := of_Z 0 |}.

(** [main()]: the table is loaded, the MIDI output is opened, then the
    handlers are installed; a rejected load ends in [process.exit(1)].
    Creating the OSC server and client is the transport's business and
    leaves no mark on the state modelled here. *)
Definition main (file : csv_stream) (MIDI_OUTPUT_NAME : string)
  (midiOutputs : list string) (opens : string -> bool) : process * list effect :=
  match loadMappings file with
  | inl code => (Exited 1, [Console Error (LoadFailed code)])
  | inr table =>
      let (midiOut, t) := init_midi MIDI_OUTPUT_NAME midiOutputs opens in
      (Running {| mappings := table; currentSetlist := currentSetlist startup |} midiOut, t)
  end.

(** What the running process reacts to: an inbound OSC message
    ([oscServer.on('message')]) and the interrupt signal
    ([process.on('SIGINT')]).  No other handler is installed. *)
Inductive event : Type :=
| Message (address : string) (args : list jsval)
| SIGINT.

(** An exception that escapes the message listener is handed to the OSC
    transport; [transport_catches] tells whether the transport swallows it
    or lets it end the process. *)
Definition react (transport_catches : bool) (p : process) (e : event)
  : process * list effect :=
  match p with
  | Exited code => (Exited code, [])
  | Running s midiOut =>
      match e with
      | Message address args =>
          match handleOscMessage s address args midiOut with
          | (Normal, s', t) => (Running s' midiOut, t)
          | (TypeError, s', t) =>
              (if transport_catches then Running s' midiOut else Exited 1, t)
          end
      | SIGINT => (Exited 0, [Console Log Closing])
      end
  end.

(** The process after a sequence of events, with everything it did. *)
Fixpoint run (transport_catches : bool) (p : process) (events : list event)
  : process * list effect :=
  match events with
  | [] => (p, [])
  | e :: rest =>
      let (p', t) := react transport_catches p e in
      let (p'', t') := run transport_catches p' rest in
      (p'', (t ++ t')%list)
  end.

(** ** Reading a result of the handler *)

Definition completion_after (r : completion * session * list effect) : completion :=
  fst (fst r).

Definition session_after (r : completion * session * list effect) : session :=
  snd (fst r).

Definition trace_of (r : completion * session * list effect) : list effect :=
  snd r.

(** ** Predicates the properties are stated with *)

(** The language of [/^(\d+)([A-H])$/i], with its two groups: one or more
    decimal digits, then one letter of A..H in either case, then the end. *)
Definition preset_syntax (id digits : string) (letter : ascii) : Prop :=
  id = digits ++ String letter "" /\
  digits <> "" /\
  Str.all_digits digits = true /\
  is_A_H letter = true.

(** An event that updates the current setlist: a message on the reserved
    address whose first argument is a number. *)
Definition updates_setlist (e : event) : bool :=
  match e with
  | Message address args =>
      String.eqb (normalize address) "/setlist" && is_number (first args)
  | SIGINT => false
  end.

(** How one token of [osc_out_args] is sent. *)
Definition sent_token (token : string) (a : oscarg) : Prop :=
  if number_isNaN (parseFloat token) then a = PlainArg (JStr token)
  else a = FloatArg (parseFloat token).

(** How one received argument is forwarded. *)
Definition sent_forwarded (v : jsval) (a : oscarg) : Prop :=
  match v with
  | JNum n => a = FloatArg n
  | _ => a = PlainArg v
  end.

(** An operation that reloads the table would be an event after which a
    running process holds another table. *)
Definition reloads_table (e : event) : Prop :=
  exists catches s midiOut s' midiOut' t,
    react catches (Running s midiOut) e = (Running s' midiOut', t) /\
    mappings s' <> mappings s.

(** ** Sample rows, rules and sources *)

(** The CSV row [/fader,0,/level]: the [osc_in_args] cell is the text 0. *)
Definition fader_row : gmap string string :=
  {[ "osc_in_address" := "/fader"; "osc_in_args" := "0";
     "osc_out_address" := "/level" ]}.

(** The rule the loader makes of it. *)
Definition fader_rule : Mapping := mapping_of_row fader_row.

(** The rule loaded from a row whose [osc_out_args] cell is the text 0. *)
Definition zero_out_rule : Mapping :=
  mapping_of_row {[ "osc_in_address" := "/in"; "osc_out_address" := "/out";
                    "osc_out_args" := "0" ]}.

(** Two rules on one address: one expects the argument 1, one takes any. *)
Definition exact_rule : Mapping :=
  {[ "osc_in_address" := JStr "/a"; "osc_in_args" := JNum (of_Z 1);
     "osc_out_address" := JStr "/exact" ]}.

Definition any_rule : Mapping :=
  {[ "osc_in_address" := JStr "/a"; "osc_out_address" := JStr "/any" ]}.

(** A rule for the reserved address itself. *)
Definition setlist_rule : Mapping :=
  {[ "osc_in_address" := JStr "/setlist"; "osc_out_address" := JStr "/echo";
     "midi_channel" := JNum (of_Z 1); "midi_type" := JStr "pc" ]}.

(** Two preset rules: one with a [setlist] of its own, one without. *)
Definition preset_rule_own : Mapping :=
  {[ "osc_in_address" := JStr "/preset"; "midi_channel" := JNum (of_Z 1);
     "midi_type" := JStr "qc_preset"; "qc_preset_id" := JStr "2C";
     "setlist" := JNum (of_Z 5) ]}.

Definition preset_rule_plain : Mapping :=
  {[ "osc_in_address" := JStr "/preset"; "midi_channel" := JNum (of_Z 1);
     "midi_type" := JStr "qc_preset"; "qc_preset_id" := JStr "2C" ]}.

(** A rule that forwards what it receives, and one with arguments of its
    own. *)
Definition forward_rule : Mapping :=
  {[ "osc_in_address" := JStr "/in"; "osc_out_address" := JStr "/out" ]}.

Definition override_rule : Mapping :=
  {[ "osc_in_address" := JStr "/in"; "osc_out_address" := JStr "/out";
     "osc_out_args" := JStr "0.5 go 7" ]}.

(** A control-change rule and a program-change rule. *)
Definition cc_rule : Mapping :=
  {[ "osc_in_address" := JStr "/knob"; "midi_channel" := JNum (of_Z 1);
     "midi_type" := JStr "cc"; "midi_controller" := JNum (of_Z 7) ]}.

Definition pc_rule : Mapping :=
  {[ "osc_in_address" := JStr "/patch"; "midi_channel" := JNum (of_Z 1);
     "midi_type" := JStr "pc"; "midi_value" := JNum (of_Z 0) ]}.

(** A CSV source that cannot be read, and one with a single row. *)
Definition unreadable : csv_stream := {| rows := []; ending := StreamError "ENOENT" |}.

Definition one_row : csv_stream := {| rows := [fader_row]; ending := End |}.

(** ** The bootstrap of [config.json] *)

(** The file as the script finds it: missing; unreadable or not JSON;
    JSON for [null]; JSON for a number, a string or a boolean; JSON for an
    array; JSON for an object.  The properties of the object are carried as
    [jsval]s (a JSON object has no property that is [undefined]); a
    property that is no string behaves, in the tests below, like a number
    does (it is never among the names of the MIDI outputs).  The elements
    of an array play no part: the script reads and writes named properties
    only. *)
Inductive config_file : Type :=
| NoFile
| Unparseable
| StoredNull
| StoredPrimitive
| StoredArray
| Stored (config : gmap string jsval).

(** [midiOutputs.length > 0 ? midiOutputs[0] : ""]. *)
Definition selectedMidiDevice (midiOutputs : list string) : string :=
  match midiOutputs with
  | name :: _ => name
  | [] => ""
  end.

Definition defaultConfig (midiOutputs : list string) : gmap string jsval :=
  {[ "OSC_LISTEN_PORT" := JNum (of_Z 8000);
     "OSC_SEND_HOST" := JStr "127.0.0.1";
     "OSC_SEND_PORT" := JNum (of_Z 7001);
     "MIDI_OUTPUT_NAME" := JStr (selectedMidiDevice midiOutputs) ]}.

(** [midiOutputs.includes(v)]. *)
Definition includes (midiOutputs : list string) (v : jsval) : bool :=
  match v with
  | JStr name => bool_decide (name ∈ midiOutputs)
  | _ => false
  end.

(** The top of the script: the default file is written when there is none,
    the file is read and parsed, and [MIDI_OUTPUT_NAME] is replaced, and the
    file rewritten, when it is missing or names no available output.
    [None] is [process.exit(1)]; otherwise the named properties of the
    configuration in use and the file left on disk.

    What the file holds decides how the [try] block goes.
    - Unreadable or not JSON: [readFileSync] or [JSON.parse] throws.
    - [null]: reading [config.MIDI_OUTPUT_NAME] throws.
    - A number, a string or a boolean: the property reads [undefined], so
      the assignment is reached; it throws in strict code and does nothing
      in sloppy code ([strict] tells which the script runs as), and the
      value is written back as it was.
    - An array: the property reads [undefined] and is set on the array in
      memory; [JSON.stringify] writes the elements of an array only, so the
      file is left holding the array.
    - An object: as the code reads. *)
Definition load_config (strict : bool) (file : config_file) (midiOutputs : list string)
  : option (gmap string jsval * config_file) :=
  let present :=
    match file with
    | NoFile => Stored (defaultConfig midiOutputs)
    | _ => file
    end in
  match present with
  | Stored config =>
      if negb (truthy (field config "MIDI_OUTPUT_NAME"))
         || negb (includes midiOutputs (field config "MIDI_OUTPUT_NAME"))
      then
        let config' :=
          match midiOutputs with
          | name :: _ => <["MIDI_OUTPUT_NAME" := JStr name]> config
          | [] => <["MIDI_OUTPUT_NAME" := JStr ""]> config
          end in
        Some (config', Stored config')
      else Some (config, Stored config)
  | StoredArray =>
      let config' : gmap string jsval :=
        match midiOutputs with
        | name :: _ => <["MIDI_OUTPUT_NAME" := JStr name]> ∅
        | [] => <["MIDI_OUTPUT_NAME" := JStr ""]> ∅
        end in
      Some (config', StoredArray)
  | StoredPrimitive => if strict then None else Some (∅, StoredPrimitive)
  | _ => None
  end.

(** ** The view: [parseCsv] and [loadCsvFile] of [+page.svelte] *)

Definition newline : ascii := ascii_of_nat 10.
Definition quote : ascii := ascii_of_nat 34.
Definition comma : ascii := ascii_of_nat 44.

(** [s.replace] with the global pattern of one double quote and the empty
    replacement: every double quote is removed. *)
Fixpoint remove_quotes (s : string) : string :=
  match s with
  | EmptyString => EmptyString
  | String a rest =>
      if Ascii.eqb a quote then remove_quotes rest else String a (remove_quotes rest)
  end.

(** [cell.trim()] and then the removal of the double quotes. *)
Definition clean_cell (cell : string) : string := remove_quotes (Str.trim cell).

Record parsed : Type := {
  headers : list string;
  data : list (list string)
}.

Definition parseCsv (csvText : string) : parsed :=
  let lines := Str.split newline (Str.trim csvText) in
  match lines with
  | [] => {| headers := []; data := [] |}
  | first_line :: others =>
      {| headers := map clean_cell (Str.split comma first_line);
         data := map (fun line => map clean_cell (Str.split comma line)) others |}
  end.

(** The component's variables that [loadCsvFile] writes. *)
Record view : Type := {
  csvData : list (list string);
  csvHeaders : list string;
  isLoadingCsv : bool;
  csvError : string
}.

(** [loadCsvFile()] up to its [await]. *)
Definition loadCsvFile_begin (v : view) : view :=
  {| csvData := csvData v; csvHeaders := csvHeaders v;
     isLoadingCsv := true; csvError := "" |}.

(** [loadCsvFile()] from its [await] on: [invoke("read_csv_file")] has
    resolved with the text of the file ([inr]) or was rejected with an
    error ([inl], the error as [String] shows it). *)
Definition loadCsvFile_settle (v : view) (outcome : string + string) : view :=
  match outcome with
  | inr csvContent =>
      let p := parseCsv csvContent in
      {| csvData := data p; csvHeaders := headers p;
         isLoadingCsv := false; csvError := csvError v |}
  | inl error =>
      {| csvData := csvData v; csvHeaders := csvHeaders v;
         isLoadingCsv := false; csvError := "Failed to load CSV: " ++ error |}
  end.

Definition loadCsvFile (v : view) (outcome : string + string) : view :=
  loadCsvFile_settle (loadCsvFile_begin v) outcome.

(** The view after a sequence of refreshes, each run to its end. *)
Definition refreshes (v : view) (outcomes : list (string + string)) : view :=
  fold_left loadCsvFile outcomes v.

(** ** More predicates and sample data *)

(** Number of occurrences of a character. *)
Fixpoint count_char (c : ascii) (s : string) : nat :=
  match s with
  | EmptyString => O
  | String a rest => (if Ascii.eqb a c then 1 else 0) + count_char c rest
  end.

(** Not in the source: the preset identifier of a program number, bank in
    decimal and letter in upper case, against which the encoder is read
    backwards. *)
Definition preset_of_program (program : Z) : string :=
  string_of_nonneg (program / 8 + 1)
  ++ String (ascii_of_nat (65 + Z.to_nat (program mod 8))) "".

(** A message on the reserved address that carries a number. *)
Definition is_update (e : event) (n : number) : Prop :=
  exists address rest,
    e = Message address (JNum n :: rest) /\ normalize address = "/setlist".

(** The five values of [midi_type] the [switch] has a case for. *)
Definition known_midi_types : list string :=
  ["note_on"; "note_off"; "cc"; "pc"; "qc_preset"].

(** A rule whose address ends with a slash, a note rule, and a preset rule
    whose identifier the loader took for a number. *)
Definition slash_rule : Mapping :=
  {[ "osc_in_address" := JStr "/foo/"; "osc_out_address" := JStr "/out" ]}.

Definition note_rule : Mapping :=
  {[ "osc_in_address" := JStr "/pad"; "midi_channel" := JNum (of_Z 0);
     "midi_type" := JStr "note_on"; "midi_note" := JNum (of_Z 60);
     "midi_velocity" := JNum (of_Z 100) ]}.

Definition numeric_preset_row : gmap string string :=
  {[ "osc_in_address" := "/preset"; "osc_out_address" := "/out";
     "midi_channel" := "1"; "midi_type" := "qc_preset"; "qc_preset_id" := "12" ]}.

Definition numeric_preset_rule : Mapping := mapping_of_row numeric_preset_row.

(** The row [/mute] with nothing but an output address. *)
Definition mute_row : gmap string string :=
  {[ "osc_in_address" := "/mute"; "osc_in_args" := ""; "osc_out_address" := "/muted" ]}.

(** The row [/ip,,/target] with the [osc_out_args] cell
    [192.168.1.10 5th 10%], and a row whose [osc_out_args] cell is one
    space; the rules the loader makes of them. *)
Definition ip_row : gmap string string :=
  {[ "osc_in_address" := "/ip"; "osc_out_address" := "/target";
     "osc_out_args" := "192.168.1.10 5th 10%" ]}.

Definition ip_rule : Mapping := mapping_of_row ip_row.

Definition blank_out_row : gmap string string :=
  {[ "osc_in_address" := "/in"; "osc_out_address" := "/out"; "osc_out_args" := " " ]}.

Definition blank_out_rule : Mapping := mapping_of_row blank_out_row.

(** * Properties *)

(** ** Strings *)

Lemma endsWith_cons a b rest c :
  Str.endsWith (String a (String b rest)) c = Str.endsWith (String b rest) c.
Proof. reflexivity. Qed.

Lemma slice_cons a b rest :
  Str.slice_0_m1 (String a (String b rest)) = String a (Str.slice_0_m1 (String b rest)).
Proof. reflexivity. Qed.

Lemma endsWith_snoc s c : Str.endsWith (s ++ String c "") c = true.
Proof.
  induction s as [|a s IH]; simpl.
  - apply Ascii.eqb_refl.
  - destruct s; simpl in *; [apply Ascii.eqb_refl | exact IH].
Qed.

Lemma slice_snoc s c : Str.slice_0_m1 (s ++ String c "") = s.
Proof.
  induction s as [|a s IH]; simpl; [reflexivity|].
  destruct s; simpl in *; [reflexivity | now rewrite IH].
Qed.

(** A string that ends with [c] is its [slice(0, -1)] followed by [c]. *)
Lemma endsWith_inv s c :
  Str.endsWith s c = true -> s = Str.slice_0_m1 s ++ String c "".
Proof.
  induction s as [|a s IH]; [discriminate|].
  destruct s as [|b s].
  - simpl. intros H. apply Ascii.eqb_eq in H. now subst.
  - intros H. rewrite slice_cons. rewrite endsWith_cons in H.
    change (String a (String b s) =
            String a (Str.slice_0_m1 (String b s) ++ String c "")).
    f_equal. apply IH. exact H.
Qed.

Lemma normalize_snoc_slash s : normalize (s ++ "/") = s.
Proof. unfold normalize. now rewrite endsWith_snoc, slice_snoc. Qed.

Lemma normalize_no_slash s : Str.endsWith s "/" = false -> normalize s = s.
Proof. unfold normalize. now intros ->. Qed.

(** ** The resolver *)

Lemma every_same_at (received expected : list string) (i : nat) :
  every_from (same_at received) i expected = true <->
  forall j e, expected !! j = Some e -> received !! (i + j)%nat = Some e.
Proof.
  revert i. induction expected as [|x xs IH]; intros i; simpl.
  - split; [intros _ j e H; now rewrite lookup_nil in H | reflexivity].
  - rewrite andb_true_iff, IH. split.
    + intros [H0 H] [|j] e He; simpl in He.
      * injection He as <-. rewrite Nat.add_0_r.
        unfold same_at in H0. destruct (received !! i) as [r|]; [|discriminate].
        apply String.eqb_eq in H0. now subst.
      * replace (i + S j)%nat with (S i + j)%nat by lia. now apply H.
    + intros H. split.
      * specialize (H 0%nat x eq_refl). rewrite Nat.add_0_r in H.
        unfold same_at. rewrite H. apply String.eqb_refl.
      * intros j e He. replace (S i + j)%nat with (i + S j)%nat by lia.
        now apply H.
Qed.

(** Equal counts and equal tokens at every index: the two lists are equal. *)
Lemma tokens_equal (expected received : list string) :
  Nat.eqb (length expected) (length received) = true /\
  every_from (same_at received) 0 expected = true <->
  expected = received.
Proof.
  rewrite Nat.eqb_eq, every_same_at. split.
  - intros [Hlen H]. apply list_eq_same_length with (length expected); try done.
    intros j x y _ Hx Hy. specialize (H j x Hx). simpl in H. congruence.
  - intros ->. split; [reflexivity | intros j e He; exact He].
Qed.

(** What the predicate of [find] decides.  The arguments are compared only
    when [osc_in_args] is truthy: [undefined], the empty string, and also
    the numbers 0 and [NaN], make the rule match any argument list. *)
Lemma rule_matches_iff (a : string) (args : list jsval) (m : Mapping) :
  rule_matches a args m = true <->
  field m "osc_in_address" = JStr a /\
  (truthy (field m "osc_in_args") = false \/
   Str.split " " (ToString (field m "osc_in_args")) = map ToString args).
Proof.
  unfold rule_matches.
  assert (Haddr : is_string (field m "osc_in_address") a = true <->
                  field m "osc_in_address" = JStr a).
  { unfold is_string. destruct (field m "osc_in_address"); try (split; discriminate).
    rewrite String.eqb_eq. split; congruence. }
  destruct (is_string (field m "osc_in_address") a); simpl.
  - destruct (truthy (field m "osc_in_args")) eqn:Ht.
    + rewrite <- tokens_equal.
      destruct (Nat.eqb _ _); simpl.
      * split; [intros H; split; [tauto | right; tauto] | intros [_ [H|H]]; [discriminate | tauto]].
      * split; [discriminate | intros [_ [H|[H _]]]; discriminate].
    + split; [intros _; split; [tauto | now left] | reflexivity].
  - split; [discriminate | intros [H _]; apply Haddr in H; discriminate].
Qed.

(** [find] returns the first rule, in table order, that the predicate
    accepts. *)
Lemma resolve_Some (table : list Mapping) (a : string) (args : list jsval) (m : Mapping) :
  resolve table a args = Some m <->
  exists before after,
    table = (before ++ m :: after)%list /\
    rule_matches a args m = true /\
    Forall (fun r => rule_matches a args r = false) before.
Proof.
  unfold resolve. induction table as [|r table IH]; simpl.
  - split; [discriminate | intros (b & af & H & _); destruct b; discriminate].
  - destruct (rule_matches a args r) eqn:Hr.
    + split.
      * intros [= <-]. exists [], table. auto.
      * intros ([|b bs] & af & Heq & Hm & Hb).
        -- simpl in Heq. congruence.
        -- simpl in Heq. injection Heq as <- _. inversion Hb; congruence.
    + rewrite IH. split.
      * intros (b & af & -> & Hm & Hb). exists (r :: b), af. auto.
      * intros ([|b bs] & af & Heq & Hm & Hb); simpl in Heq.
        -- injection Heq as <- _. congruence.
        -- injection Heq as <- ->. exists bs, af. inversion Hb; auto.
Qed.

Lemma resolve_None (table : list Mapping) (a : string) (args : list jsval) :
  resolve table a args = None <->
  Forall (fun r => rule_matches a args r = false) table.
Proof.
  unfold resolve. induction table as [|r table IH]; simpl.
  - split; auto.
  - destruct (rule_matches a args r) eqn:Hr.
    + split; [discriminate | intros H; inversion H; congruence].
    + rewrite IH. split; [auto | intros H; now inversion H].
Qed.

(** ** The preset encoder *)

Lemma is_A_H_not_digit (l : ascii) : is_A_H l = true -> Str.is_digit l = false.
Proof. destruct l as [[] [] [] [] [] [] [] []]; vm_compute; congruence. Qed.

(** The letters of the class, and the offset of each: its position in
    A..H, whatever its case. *)
Lemma is_A_H_letters (l : ascii) :
  is_A_H l = true <->
  exists i : nat,
    list_ascii_of_string "ABCDEFGH" !! i = Some (Str.toUpperCase1 l) /\
    presetOffset l = Z.of_nat i.
Proof.
  split.
  - destruct l as [[] [] [] [] [] [] [] []]; vm_compute; try congruence; intros _;
      first [ now exists 0%nat | now exists 1%nat | now exists 2%nat
            | now exists 3%nat | now exists 4%nat | now exists 5%nat
            | now exists 6%nat | now exists 7%nat ].
  - intros (i & Hi & _).
    do 8 (destruct i as [|i]; [injection Hi as Hi; revert Hi;
      destruct l as [[] [] [] [] [] [] [] []]; vm_compute; congruence |]).
    discriminate.
Qed.

Lemma presetOffset_range (l : ascii) : is_A_H l = true -> 0 <= presetOffset l <= 7.
Proof.
  intros H. apply is_A_H_letters in H as (i & Hi & ->).
  apply lookup_lt_Some in Hi. simpl in Hi. lia.
Qed.

Lemma span_digits_app (d rest : string) (c : ascii) :
  Str.all_digits d = true -> Str.is_digit c = false ->
  Str.span_digits (d ++ String c rest) = (d, String c rest).
Proof.
  intros Hd Hc. induction d as [|a d IH]; simpl in *.
  - now rewrite Hc.
  - apply andb_true_iff in Hd as [Ha Hd]. now rewrite Ha, IH.
Qed.

Lemma span_digits_inv (s d r : string) :
  Str.span_digits s = (d, r) ->
  s = d ++ r /\ Str.all_digits d = true.
Proof.
  revert d r. induction s as [|a s IH]; simpl; intros d r H.
  - now injection H as <- <-.
  - destruct (Str.is_digit a) eqn:Ha.
    + destruct (Str.span_digits s) as [d' r'].
      injection H as <- <-. destruct (IH d' r' eq_refl) as [-> Hd].
      simpl. now rewrite Ha, Hd.
    + now injection H as <- <-.
Qed.

(** [preset_match] decides [preset_syntax] and returns its groups. *)
Lemma preset_match_iff (id digits : string) (letter : ascii) :
  preset_match id = Some (digits, letter) <-> preset_syntax id digits letter.
Proof.
  unfold preset_match, preset_syntax. split.
  - destruct (Str.span_digits id) as [d r] eqn:Hs.
    apply span_digits_inv in Hs as [-> Hd].
    destruct d as [|a d]; [discriminate|].
    destruct r as [|l [|b r]]; try discriminate.
    destruct (is_A_H l) eqn:Hl; [|discriminate].
    intros [= <- <-]. repeat split; auto; try discriminate.
  - intros (-> & Hne & Hd & Hl).
    rewrite span_digits_app by auto using is_A_H_not_digit.
    destruct digits; [congruence|]. now rewrite Hl.
Qed.

Lemma preset_match_None (id : string) :
  preset_match id = None <-> forall digits letter, ~ preset_syntax id digits letter.
Proof.
  split.
  - intros H d l Hs. apply preset_match_iff in Hs. congruence.
  - intros H. destruct (preset_match id) as [[d l]|] eqn:Hm; [|reflexivity].
    apply preset_match_iff in Hm. now apply H in Hm.
Qed.

(** A way to establish, by evaluation, that every parse of an identifier
    has its bank out of range. *)
Lemma rejected_by_evaluation (id : string) :
  match preset_match id with
  | None => True
  | Some (digits, _) => parseInt_digits digits < 1 \/ 32 < parseInt_digits digits
  end ->
  forall digits letter, preset_syntax id digits letter ->
    parseInt_digits digits < 1 \/ 32 < parseInt_digits digits.
Proof.
  intros H d l Hs. apply preset_match_iff in Hs. now rewrite Hs in H.
Qed.

(** An identifier has at most one reading as digits-then-letter, so "every
    reading has its bank out of range" says: the identifier has no
    reading, or its bank is out of range. *)
Lemma rejected_iff (id : string) :
  (forall digits letter, preset_syntax id digits letter ->
     parseInt_digits digits < 1 \/ 32 < parseInt_digits digits) <->
  (forall digits letter, ~ preset_syntax id digits letter) \/
  (exists digits letter, preset_syntax id digits letter /\
     (parseInt_digits digits < 1 \/ 32 < parseInt_digits digits)).
Proof.
  split.
  - intros H. destruct (preset_match id) as [[d l]|] eqn:Hm.
    + right. apply preset_match_iff in Hm. exists d, l.
      split; [exact Hm | exact (H d l Hm)].
    + left. now apply preset_match_None.
  - intros [H | (d & l & Hs & Hb)] d' l' Hs'.
    + now apply H in Hs'.
    + apply preset_match_iff in Hs, Hs'. congruence.
Qed.

(** C2. For every preset identifier of the form digits-then-letter (the
    language of [^(\d+)([A-H])$], either case) whose bank is between 1 and
    32, the encoder returns normally and sends exactly three MIDI messages,
    in this order and on the given channel: control change 0 with value 0,
    control change 32 with the given setlist, and a program change whose
    number is [(bank - 1) * 8 + offset], the offset being the position of
    the letter in A..H; that number lies between 0 and 255. *)
Theorem preset_encoding (id digits : string) (letter : ascii) (channel setlist : jsval) :
  preset_syntax id digits letter ->
  1 <= parseInt_digits digits <= 32 ->
  let bank := parseInt_digits digits in
  let program := (bank - 1) * 8 + presetOffset letter in
  fst (sendQuadCortexPreset (JStr id) channel setlist) = Normal /\
  midi_of (snd (sendQuadCortexPreset (JStr id) channel setlist)) =
    [ ControlChange (JNum (of_Z 0)) (JNum (of_Z 0)) channel;
      ControlChange (JNum (of_Z 32)) setlist channel;
      ProgramChange (JNum (of_Z program)) channel ] /\
  (exists i : nat,
      list_ascii_of_string "ABCDEFGH" !! i = Some (Str.toUpperCase1 letter) /\
      presetOffset letter = Z.of_nat i) /\
  0 <= program <= 255.
Proof.
  intros Hs Hb bank program.
  pose proof Hs as (_ & _ & _ & Hl).
  apply preset_match_iff in Hs.
  unfold sendQuadCortexPreset. rewrite Hs. fold bank.
  replace ((bank <? 1) || (32 <? bank)) with false
    by (symmetry; apply orb_false_iff; split; apply Z.ltb_ge; subst bank; lia).
  split; [reflexivity|]. split; [reflexivity|]. split.
  - now apply is_A_H_letters.
  - apply presetOffset_range in Hl. subst program bank. lia.
Qed.

(** The preset table of the specification, by the theorem: "1A", "1H",
    "2A" and "32H" are well formed, their banks are in range, and they give
    programs 0, 7, 8 and 255. *)
Lemma preset_encoding_table :
  let sent id := midi_of (snd (sendQuadCortexPreset (JStr id) (JNum (of_Z 1)) (JNum (of_Z 3)))) in
  let three program :=
    [ ControlChange (JNum (of_Z 0)) (JNum (of_Z 0)) (JNum (of_Z 1));
      ControlChange (JNum (of_Z 32)) (JNum (of_Z 3)) (JNum (of_Z 1));
      ProgramChange (JNum (of_Z program)) (JNum (of_Z 1)) ] in
  (preset_syntax "32H" "32" "H" /\ 1 <= parseInt_digits "32" <= 32) /\
  sent "1A" = three 0 /\ sent "1H" = three 7 /\
  sent "2A" = three 8 /\ sent "32H" = three 255.
Proof.
  assert (S : forall d l, preset_match (d ++ String l "") = Some (d, l) ->
                          preset_syntax (d ++ String l "") d l)
    by (intros d l; apply preset_match_iff).
  assert (R : forall n, (1 <=? n) && (n <=? 32) = true -> 1 <= n <= 32)
    by (intros n H; apply andb_true_iff in H as [H1 H2];
        apply Z.leb_le in H1, H2; split; assumption).
  cbv zeta. split; [|split; [|split; [|split]]].
  - split; [apply (S "32" "H"%char); reflexivity | apply R; reflexivity].
  - apply (preset_encoding "1A" "1" "A" (JNum (of_Z 1)) (JNum (of_Z 3)));
      [apply (S "1" "A"%char); reflexivity | apply R; reflexivity].
  - apply (preset_encoding "1H" "1" "H" (JNum (of_Z 1)) (JNum (of_Z 3)));
      [apply (S "1" "H"%char); reflexivity | apply R; reflexivity].
  - apply (preset_encoding "2A" "2" "A" (JNum (of_Z 1)) (JNum (of_Z 3)));
      [apply (S "2" "A"%char); reflexivity | apply R; reflexivity].
  - apply (preset_encoding "32H" "32" "H" (JNum (of_Z 1)) (JNum (of_Z 3)));
      [apply (S "32" "H"%char); reflexivity | apply R; reflexivity].
Defined.

(** C3. For every preset identifier that is not of the form
    digits-then-letter, or whose bank is below 1 or above 32 (that is: every
    way to read it as digits-then-letter has its bank out of range), the
    encoder returns after one console error and sends no MIDI message. *)
Theorem preset_rejected (id : string) (channel setlist : jsval) :
  (forall digits letter, preset_syntax id digits letter ->
     parseInt_digits digits < 1 \/ 32 < parseInt_digits digits) ->
  fst (sendQuadCortexPreset (JStr id) channel setlist) = Normal /\
  midi_of (snd (sendQuadCortexPreset (JStr id) channel setlist)) = [] /\
  exists r, snd (sendQuadCortexPreset (JStr id) channel setlist) = [Console Error r] /\
    ((r = InvalidPresetFormat id /\ preset_match id = None) \/
     (exists digits letter, preset_syntax id digits letter /\
        r = InvalidBank (parseInt_digits digits))).
Proof.
  intros H. unfold sendQuadCortexPreset.
  destruct (preset_match id) as [[d l]|] eqn:Hm.
  - apply preset_match_iff in Hm. pose proof (H d l Hm) as Hb.
    replace ((parseInt_digits d <? 1) || (32 <? parseInt_digits d)) with true
      by (symmetry; apply orb_true_iff; rewrite !Z.ltb_lt; exact Hb).
    split; [reflexivity|]. split; [reflexivity|].
    eexists. split; [reflexivity|]. right. eauto.
  - split; [reflexivity|]. split; [reflexivity|].
    eexists. split; [reflexivity|]. now left.
Qed.

(** The rejected identifiers of the specification, by the theorem: "0A",
    "33A", "1I" and "abc" send nothing. *)
Lemma preset_rejected_table :
  let sent id := midi_of (snd (sendQuadCortexPreset (JStr id) (JNum (of_Z 1)) (JNum (of_Z 3)))) in
  (forall digits letter, preset_syntax "33A" digits letter ->
     parseInt_digits digits < 1 \/ 32 < parseInt_digits digits) /\
  sent "0A" = [] /\ sent "33A" = [] /\ sent "1I" = [] /\ sent "abc" = [].
Proof.
  cbv zeta. split; [|split; [|split; [|split]]].
  - apply rejected_by_evaluation. vm_compute. now right.
  - apply (preset_rejected "0A"). apply rejected_by_evaluation. vm_compute. now left.
  - apply (preset_rejected "33A"). apply rejected_by_evaluation. vm_compute. now right.
  - apply (preset_rejected "1I"). apply rejected_by_evaluation. vm_compute. exact I.
  - apply (preset_rejected "abc"). apply rejected_by_evaluation. vm_compute. exact I.
Defined.

(** ** The dispatcher *)

Lemma midi_of_app (t u : list effect) : midi_of (t ++ u)%list = (midi_of t ++ midi_of u)%list.
Proof. apply omap_app. Qed.

Lemma osc_of_app (t u : list effect) : osc_of (t ++ u)%list = (osc_of t ++ osc_of u)%list.
Proof. apply omap_app. Qed.

Lemma midi_of_osc_output (mapping : Mapping) (args : list jsval) :
  midi_of (osc_output mapping args) = [].
Proof. unfold osc_output. now destruct (truthy _). Qed.

Lemma osc_of_preset (presetId channel setlist : jsval) :
  osc_of (snd (sendQuadCortexPreset presetId channel setlist)) = [].
Proof.
  unfold sendQuadCortexPreset. destruct presetId as [| |id]; try reflexivity.
  destruct (preset_match id) as [[d l]|]; [|reflexivity].
  now destruct (_ || _).
Qed.

Lemma osc_of_midi_output (cs : number) (mapping : Mapping) (args : list jsval)
  (midiOut : option MidiOutput) :
  osc_of (snd (midi_output cs mapping args midiOut)) = [].
Proof.
  unfold midi_output. destruct midiOut; [|reflexivity].
  repeat (match goal with
          | |- context [if ?b then _ else _] => destruct b
          end; try reflexivity).
  all: apply osc_of_preset.
Qed.

Lemma midi_output_closed (cs : number) (mapping : Mapping) (args : list jsval) :
  midi_output cs mapping args None = (Normal, []).
Proof. reflexivity. Qed.

(** The handler on an address that is not the reserved one and resolves
    to [mapping]: the OSC block, then the MIDI block. *)
Lemma handle_resolved (s : session) (address : string) (args : list jsval)
  (midiOut : option MidiOutput) (mapping : Mapping) :
  normalize address <> "/setlist" ->
  resolve (mappings s) (normalize address) args = Some mapping ->
  handleOscMessage s address args midiOut =
    (fst (midi_output (currentSetlist s) mapping args midiOut), s,
     (Console Log (Received address (normalize address) args)
        :: osc_output mapping args
        ++ snd (midi_output (currentSetlist s) mapping args midiOut))%list).
Proof.
  intros Hn Hr. unfold handleOscMessage.
  apply String.eqb_neq in Hn. rewrite Hn, Hr.
  now destruct (midi_output _ _ _ _).
Qed.

Lemma handle_unresolved (s : session) (address : string) (args : list jsval)
  (midiOut : option MidiOutput) :
  normalize address <> "/setlist" ->
  resolve (mappings s) (normalize address) args = None ->
  handleOscMessage s address args midiOut =
    (Normal, s,
     [ Console Log (Received address (normalize address) args);
       Console Log (NoMappingFound (normalize address) args) ]).
Proof.
  intros Hn Hr. unfold handleOscMessage.
  apply String.eqb_neq in Hn. now rewrite Hn, Hr.
Qed.

(** What the handler sends over OSC and MIDI when a rule is resolved. *)
Lemma handle_resolved_osc (s : session) (address : string) (args : list jsval)
  (midiOut : option MidiOutput) (mapping : Mapping) :
  normalize address <> "/setlist" ->
  resolve (mappings s) (normalize address) args = Some mapping ->
  osc_of (trace_of (handleOscMessage s address args midiOut)) =
    osc_of (osc_output mapping args).
Proof.
  intros Hn Hr. rewrite (handle_resolved _ _ _ _ _ Hn Hr). unfold trace_of. simpl.
  rewrite osc_of_app, osc_of_midi_output. apply app_nil_r.
Qed.

Lemma handle_resolved_midi (s : session) (address : string) (args : list jsval)
  (midiOut : option MidiOutput) (mapping : Mapping) :
  normalize address <> "/setlist" ->
  resolve (mappings s) (normalize address) args = Some mapping ->
  midi_of (trace_of (handleOscMessage s address args midiOut)) =
    midi_of (snd (midi_output (currentSetlist s) mapping args midiOut)).
Proof.
  intros Hn Hr. rewrite (handle_resolved _ _ _ _ _ Hn Hr). unfold trace_of. simpl.
  now rewrite midi_of_app, midi_of_osc_output.
Qed.

(** The handler never touches the table. *)
Lemma handle_keeps_table (s : session) (address : string) (args : list jsval)
  (midiOut : option MidiOutput) :
  mappings (session_after (handleOscMessage s address args midiOut)) = mappings s.
Proof.
  unfold handleOscMessage, session_after.
  destruct (String.eqb _ _).
  - now destruct (first args).
  - destruct (resolve _ _ _); [|reflexivity]. now destruct (midi_output _ _ _ _).
Qed.

(** Only the reserved address with a numeric first argument changes the
    current setlist. *)
Lemma handle_keeps_setlist (s : session) (address : string) (args : list jsval)
  (midiOut : option MidiOutput) :
  (String.eqb (normalize address) "/setlist" && is_number (first args)) = false ->
  session_after (handleOscMessage s address args midiOut) = s.
Proof.
  unfold handleOscMessage, session_after.
  destruct (String.eqb _ _); simpl.
  - now destruct (first args).
  - intros _. destruct (resolve _ _ _); [|reflexivity]. now destruct (midi_output _ _ _ _).
Qed.

(** *** Resolution *)

(** C1, at an input where the resolver departs from it.  The rule loaded
    from the row [/fader,0] expects the one argument token "0": the loader
    stores the number 0 for that cell, its string representation is "0",
    and the received argument 1 has the string representation "1".  The
    claim has the rule match only an argument list whose tokens are ["0"];
    the resolver returns the rule for the argument list [1] (and for any
    other), because the test [if (m.osc_in_args)] takes the number 0 for an
    absent field. *)
Theorem zero_osc_in_args_matches_any_arguments :
  field fader_rule "osc_in_address" = JStr "/fader" /\
  field fader_rule "osc_in_args" = JNum (Dec 0 0) /\
  Str.split " " (ToString (field fader_rule "osc_in_args")) = ["0"] /\
  map ToString [JNum (Dec 1 0)] = ["1"] /\
  resolve [fader_rule] (normalize "/fader") [JNum (Dec 1 0)] = Some fader_rule /\
  (forall args, resolve [fader_rule] (normalize "/fader") args = Some fader_rule).
Proof.
  split; [reflexivity|]. split; [reflexivity|]. split; [reflexivity|].
  split; [reflexivity|]. split; [reflexivity|].
  intros args. apply resolve_Some. exists [], []. split; [reflexivity|].
  split; [|constructor]. apply rule_matches_iff. split; [reflexivity | now left].
Qed.

(** The sibling test, on [osc_out_args], takes the number 0 for what it
    is, a field that is present: the rule loaded from a row whose
    [osc_out_args] cell is 0 sends the argument 0 and does not forward the
    received ones. *)
Example zero_osc_out_args_is_sent :
  field zero_out_rule "osc_out_args" = JNum (Dec 0 0) /\
  finalArgs zero_out_rule [JNum (of_Z 9)] = [FloatArg (Dec 0 0)].
Proof. split; reflexivity. Qed.

(** What the loader makes of a cell. *)
Example loader_cells :
  convert_cell "" = JUndef /\
  convert_cell "0" = JNum (Dec 0 0) /\
  convert_cell " " = JNum (Dec 0 0) /\
  convert_cell "1.50" = JNum (Dec 150 (-2)) /\
  ToString (convert_cell "1.50") = "1.5" /\
  convert_cell "0x1A" = JNum (Dec 26 0) /\
  convert_cell "1 2" = JStr "1 2" /\
  convert_cell "12D" = JStr "12D" /\
  convert_cell "qc_preset" = JStr "qc_preset" /\
  convert_cell "/fader" = JStr "/fader".
Proof. repeat split. Qed.

(** First match in table order, on two rules of one address. *)
Example first_match_precedence :
  resolve [exact_rule; any_rule] "/a" [JNum (of_Z 1)] = Some exact_rule /\
  resolve [any_rule; exact_rule] "/a" [JNum (of_Z 1)] = Some any_rule /\
  resolve [exact_rule; any_rule] "/a" [JNum (of_Z 2)] = Some any_rule /\
  resolve [exact_rule; any_rule] "/a" [JNum (of_Z 1); JStr "x"] = Some any_rule /\
  resolve [exact_rule; any_rule] "/b" [JNum (of_Z 1)] = None.
Proof. repeat split. Qed.

(** Apart from that test, the resolver is the first-match scan of the
    specification: it returns the first rule, in table order, whose
    [osc_in_address] is the normalized address and whose [osc_in_args] is
    falsy or splits into the string representations of the arguments. *)
Lemma resolve_first_match (table : list Mapping) (a : string) (args : list jsval)
  (m : Mapping) :
  resolve table a args = Some m <->
  exists before after,
    table = (before ++ m :: after)%list /\
    (field m "osc_in_address" = JStr a /\
     (truthy (field m "osc_in_args") = false \/
      Str.split " " (ToString (field m "osc_in_args")) = map ToString args)) /\
    Forall (fun r => ~ (field r "osc_in_address" = JStr a /\
                        (truthy (field r "osc_in_args") = false \/
                         Str.split " " (ToString (field r "osc_in_args"))
                           = map ToString args))) before.
Proof.
  rewrite resolve_Some. split; intros (b & af & Ht & Hm & Hb); exists b, af;
    (split; [exact Ht|]); (split; [now apply rule_matches_iff|]);
    eapply Forall_impl; try exact Hb; simpl; intros r Hr.
  - intros H. apply rule_matches_iff in H. congruence.
  - destruct (rule_matches a args r) eqn:E; [|reflexivity].
    apply rule_matches_iff in E. contradiction.
Qed.

(** *** Normalization *)

(** C4. Normalization removes exactly one trailing slash and changes
    nothing else: an address followed by a slash is mapped back to that
    address; every address is either returned as it is (it has no trailing
    slash) or is its normalized form followed by one slash; case and inner
    or doubled slashes are kept.  So "/foo/" and "/foo" resolve to the same
    rule or both to none, in every table and for every argument list, and
    so do [a ++ "/"] and [a] for every address [a] without trailing
    slash. *)
Theorem normalization_strips_one_slash :
  (forall a, normalize (a ++ "/") = a) /\
  (forall a, (Str.endsWith a "/" = false /\ normalize a = a) \/
             (Str.endsWith a "/" = true /\ a = normalize a ++ "/")) /\
  (normalize "/Foo" = "/Foo" /\ normalize "/a//b" = "/a//b" /\
   normalize "/foo//" = "/foo/" /\ normalize "/" = "") /\
  (forall table args,
     resolve table (normalize "/foo/") args = resolve table (normalize "/foo") args) /\
  (forall a table args, Str.endsWith a "/" = false ->
     resolve table (normalize (a ++ "/")) args = resolve table (normalize a) args).
Proof.
  split; [exact normalize_snoc_slash|]. split.
  - intros a. destruct (Str.endsWith a "/") eqn:E.
    + right. split; [reflexivity|]. unfold normalize. rewrite E.
      now apply endsWith_inv.
    + left. split; [reflexivity|]. now apply normalize_no_slash.
  - split; [repeat split|]. split; [reflexivity|].
    intros a table args H. now rewrite normalize_snoc_slash, normalize_no_slash.
Qed.

Lemma normalization_strips_one_slash_witness :
  Str.endsWith "/fader" "/" = false /\
  resolve [fader_rule] (normalize ("/fader" ++ "/")) [JStr "x"]
    = resolve [fader_rule] (normalize "/fader") [JStr "x"].
Proof.
  split; [reflexivity|].
  apply (proj2 (proj2 (proj2 (proj2 normalization_strips_one_slash)))).
  reflexivity.
Defined.

(** *** The reserved address *)

(** C5. When the normalized address is "/setlist" the handler returns
    normally; the current setlist becomes the first argument if that is a
    number and is left as it was otherwise (with a warning); the table is
    not consulted (the trace is the same whatever the table holds) and
    nothing is sent over OSC or MIDI. *)
Theorem setlist_intercepted (s : session) (address : string) (args : list jsval)
  (midiOut : option MidiOutput) :
  normalize address = "/setlist" ->
  let r := handleOscMessage s address args midiOut in
  completion_after r = Normal /\
  mappings (session_after r) = mappings s /\
  currentSetlist (session_after r)
    = match first args with JNum n => n | _ => currentSetlist s end /\
  (is_number (first args) = false ->
     session_after r = s /\ warnings_of (trace_of r) = [InvalidSetlistArgument]) /\
  osc_of (trace_of r) = [] /\
  midi_of (trace_of r) = [] /\
  (forall table,
     trace_of (handleOscMessage
                 {| mappings := table; currentSetlist := currentSetlist s |}
                 address args midiOut) = trace_of r).
Proof.
  intros Hn. unfold handleOscMessage. rewrite Hn. simpl.
  destruct (first args) as [| n | x]; simpl; repeat split; try discriminate;
    now destruct s.
Qed.

Lemma setlist_intercepted_witness :
  let s := {| mappings := [setlist_rule]; currentSetlist := of_Z 2 |} in
  normalize "/setlist/" = "/setlist" /\
  session_after (handleOscMessage s "/setlist/" [JStr "two"] (Some (Device "QC"))) = s /\
  osc_of (trace_of (handleOscMessage s "/setlist/" [JStr "two"] (Some (Device "QC")))) = [] /\
  midi_of (trace_of (handleOscMessage s "/setlist/" [JStr "two"] (Some (Device "QC")))) = [] /\
  currentSetlist
    (session_after (handleOscMessage s "/setlist/" [JNum (of_Z 5)] (Some (Device "QC"))))
    = of_Z 5.
Proof.
  cbv zeta.
  pose proof (setlist_intercepted
                {| mappings := [setlist_rule]; currentSetlist := of_Z 2 |}
                "/setlist/" [JStr "two"] (Some (Device "QC")) eq_refl)
    as (_ & _ & _ & Hs & Ho & Hm & _).
  pose proof (setlist_intercepted
                {| mappings := [setlist_rule]; currentSetlist := of_Z 2 |}
                "/setlist/" [JNum (of_Z 5)] (Some (Device "QC")) eq_refl)
    as (_ & _ & Hc & _).
  split; [reflexivity|]. split; [exact (proj1 (Hs eq_refl))|].
  split; [exact Ho|]. split; [exact Hm | exact Hc].
Defined.

(** *** The session over a run *)

Lemma react_keeps_table (catches : bool) (e : event) (s s' : session)
  (midiOut midiOut' : option MidiOutput) (t : list effect) :
  react catches (Running s midiOut) e = (Running s' midiOut', t) ->
  mappings s' = mappings s /\ midiOut' = midiOut.
Proof.
  destruct e as [address args|]; simpl; [|discriminate].
  pose proof (handle_keeps_table s address args midiOut) as H.
  unfold session_after in H.
  destruct (handleOscMessage s address args midiOut) as [[c s1] t1]. simpl in H.
  destruct c; [|destruct catches]; intros [= <- <- _] || discriminate; auto.
Qed.

Lemma react_keeps_setlist (catches : bool) (e : event) (s s' : session)
  (midiOut midiOut' : option MidiOutput) (t : list effect) :
  updates_setlist e = false ->
  react catches (Running s midiOut) e = (Running s' midiOut', t) ->
  s' = s.
Proof.
  destruct e as [address args|]; simpl; [|discriminate].
  intros Hu. pose proof (handle_keeps_setlist s address args midiOut Hu) as H.
  unfold session_after in H.
  destruct (handleOscMessage s address args midiOut) as [[c s1] t1]. simpl in H.
  destruct c; [|destruct catches]; intros [= <- <- _] || discriminate; auto.
Qed.

Lemma react_exited (catches : bool) (e : event) (code : Z) :
  react catches (Exited code) e = (Exited code, []).
Proof. reflexivity. Qed.

Lemma run_exited (catches : bool) (events : list event) (code : Z) :
  run catches (Exited code) events = (Exited code, []).
Proof. induction events as [|e es IH]; simpl; [reflexivity | now rewrite IH]. Qed.

Lemma run_cons (catches : bool) (p : process) (e : event) (es : list event) :
  run catches p (e :: es) =
    (fst (run catches (fst (react catches p e)) es),
     (snd (react catches p e) ++ snd (run catches (fst (react catches p e)) es))%list).
Proof.
  simpl. destruct (react catches p e) as [p1 t1]. simpl.
  now destruct (run catches p1 es).
Qed.

(** A process that is still running at the end of a run was running all
    along, with the table and the MIDI handle it started with. *)
Lemma run_keeps_table (catches : bool) (events : list event) :
  forall (s s' : session) (midiOut midiOut' : option MidiOutput) (t : list effect),
  run catches (Running s midiOut) events = (Running s' midiOut', t) ->
  mappings s' = mappings s /\ midiOut' = midiOut.
Proof.
  induction events as [|e es IH]; intros s s' m m' t H.
  - simpl in H. now injection H as <- <- _.
  - rewrite run_cons in H.
    destruct (react catches (Running s m) e) as [p1 t1] eqn:Hr.
    destruct p1 as [s1 m1|code]; simpl in H.
    + apply react_keeps_table in Hr as [Hs ->].
      destruct (run catches (Running s1 m) es) as [p2 t2] eqn:Hrun.
      simpl in H. injection H as -> _. apply IH in Hrun as [Hs' ->]. split; congruence.
    + rewrite run_exited in H. discriminate.
Qed.

Lemma run_keeps_setlist (catches : bool) (events : list event) :
  forall (s s' : session) (midiOut midiOut' : option MidiOutput) (t : list effect),
  Forall (fun e => updates_setlist e = false) events ->
  run catches (Running s midiOut) events = (Running s' midiOut', t) ->
  s' = s.
Proof.
  induction events as [|e es IH]; intros s s' m m' t Hall H.
  - simpl in H. now injection H as <- _ _.
  - inversion Hall as [|? ? He Hes]; subst. rewrite run_cons in H.
    destruct (react catches (Running s m) e) as [p1 t1] eqn:Hr.
    destruct p1 as [s1 m1|code]; simpl in H.
    + apply (react_keeps_setlist _ _ _ _ _ _ _ He) in Hr as ->.
      destruct (run catches (Running s m1) es) as [p2 t2] eqn:Hrun.
      simpl in H. injection H as -> _. now apply IH in Hrun.
    + rewrite run_exited in H. discriminate.
Qed.

Lemma main_running (file : csv_stream) (name : string) (outputs : list string)
  (opens : string -> bool) (s : session) (midiOut : option MidiOutput)
  (t : list effect) :
  main file name outputs opens = (Running s midiOut, t) ->
  ending file = End /\
  s = {| mappings := map mapping_of_row (rows file); currentSetlist := of_Z 0 |}.
Proof.
  unfold main, loadMappings. destruct (ending file); [|discriminate].
  destruct (init_midi name outputs opens). now intros [= <- _ _].
Qed.

(** *** The qc_preset rule and the setlist *)

(** C6. When the handler resolves a qc_preset rule (with a device open, a
    channel and a preset identifier), what it sends over MIDI, and how it
    ends, is what the preset encoder does on the rule's identifier and
    channel and on the rule's own [setlist] when that is defined, the
    current setlist otherwise.  The current setlist is 0 at startup and
    when [main] has started the process, and is still 0 after any run in
    which no event updates it. *)
Theorem setlist_precedence :
  (forall (s : session) (address : string) (args : list jsval) (device : MidiOutput)
          (mapping : Mapping),
     normalize address <> "/setlist" ->
     resolve (mappings s) (normalize address) args = Some mapping ->
     is_string (field mapping "midi_type") "qc_preset" = true ->
     is_defined (field mapping "midi_channel") = true ->
     truthy (field mapping "qc_preset_id") = true ->
     let setlist :=
       if is_defined (field mapping "setlist") then field mapping "setlist"
       else JNum (currentSetlist s) in
     let encoder :=
       sendQuadCortexPreset (field mapping "qc_preset_id")
                            (field mapping "midi_channel") setlist in
     midi_of (trace_of (handleOscMessage s address args (Some device)))
       = midi_of (snd encoder) /\
     completion_after (handleOscMessage s address args (Some device)) = fst encoder) /\
  currentSetlist startup = of_Z 0 /\
  (forall file name outputs opens s midiOut t,
     main file name outputs opens = (Running s midiOut, t) ->
     currentSetlist s = of_Z 0) /\
  (forall file name outputs opens s midiOut t catches events s' midiOut' t',
     main file name outputs opens = (Running s midiOut, t) ->
     Forall (fun e => updates_setlist e = false) events ->
     run catches (Running s midiOut) events = (Running s' midiOut', t') ->
     currentSetlist s' = of_Z 0).
Proof.
  split; [|split; [reflexivity|split]].
  - intros s address args device mapping Hn Hr Ht Hc Hp setlist encoder.
    rewrite (handle_resolved_midi _ _ _ _ _ Hn Hr).
    rewrite (handle_resolved _ _ _ _ _ Hn Hr).
    unfold completion_after, midi_output. simpl.
    assert (Htruthy : truthy (field mapping "midi_type") = true).
    { unfold is_string in Ht. destruct (field mapping "midi_type") as [| |x];
        try discriminate. apply String.eqb_eq in Ht. now subst. }
    rewrite Htruthy, Hc. simpl.
    assert (Hother : forall k, k <> "qc_preset" ->
                               is_string (field mapping "midi_type") k = false).
    { intros k Hk. unfold is_string in *. destruct (field mapping "midi_type") as [| |x];
        try discriminate. apply String.eqb_eq in Ht. subst.
      apply String.eqb_neq. congruence. }
    rewrite !Hother by discriminate. rewrite Ht, Hp. split; reflexivity.
  - intros file name outputs opens s midiOut t H.
    apply main_running in H as [_ ->]. reflexivity.
  - intros file name outputs opens s midiOut t catches events s' midiOut' t' Hm Hall H.
    rewrite (run_keeps_setlist _ _ _ _ _ _ _ Hall H).
    apply main_running in Hm as [_ ->]. reflexivity.
Qed.

Lemma setlist_precedence_witness :
  let own := {| mappings := [preset_rule_own]; currentSetlist := of_Z 2 |} in
  let plain := {| mappings := [preset_rule_plain]; currentSetlist := of_Z 2 |} in
  let three setlist :=
    [ ControlChange (JNum (of_Z 0)) (JNum (of_Z 0)) (JNum (of_Z 1));
      ControlChange (JNum (of_Z 32)) (JNum (of_Z setlist)) (JNum (of_Z 1));
      ProgramChange (JNum (of_Z 10)) (JNum (of_Z 1)) ] in
  (normalize "/preset" <> "/setlist" /\
   resolve (mappings own) (normalize "/preset") [] = Some preset_rule_own /\
   resolve (mappings plain) (normalize "/preset") [] = Some preset_rule_plain) /\
  midi_of (trace_of (handleOscMessage own "/preset" [] (Some (Device "QC")))) = three 5 /\
  midi_of (trace_of (handleOscMessage plain "/preset" [] (Some (Device "QC")))) = three 2.
Proof.
  cbv zeta.
  assert (Hn : normalize "/preset" <> "/setlist") by (vm_compute; discriminate).
  split; [split; [exact Hn | split; reflexivity]|]. split.
  - exact (proj1 (proj1 setlist_precedence
             {| mappings := [preset_rule_own]; currentSetlist := of_Z 2 |}
             "/preset" [] (Device "QC") preset_rule_own
             Hn eq_refl eq_refl eq_refl eq_refl)).
  - exact (proj1 (proj1 setlist_precedence
             {| mappings := [preset_rule_plain]; currentSetlist := of_Z 2 |}
             "/preset" [] (Device "QC") preset_rule_plain
             Hn eq_refl eq_refl eq_refl eq_refl)).
Defined.

(** *** The OSC output *)

Lemma Forall2_map_fun {A B : Type} (R : A -> B -> Prop) (f : A -> B) (l : list A) :
  (forall x, R x (f x)) -> Forall2 R l (map f l).
Proof. intros H. induction l; simpl; constructor; auto. Qed.

(** What the handler sends over OSC, as the code has it.  When it resolves
    a rule whose [osc_out_address] is not empty, it sends exactly one OSC
    message, to that address.  If [osc_out_args] is present and not blank
    after trimming, the arguments are its space-split tokens, one for one
    and in order: float-tagged with the value of [parseFloat] when that is
    not [NaN], the token itself as a string otherwise.  If [osc_out_args]
    is absent or blank, the arguments are the received ones, one for one
    and in order: a number float-tagged, anything else as it was
    received. *)
Theorem osc_output_arguments (s : session) (address : string) (args : list jsval)
  (midiOut : option MidiOutput) (mapping : Mapping) :
  normalize address <> "/setlist" ->
  resolve (mappings s) (normalize address) args = Some mapping ->
  truthy (field mapping "osc_out_address") = true ->
  let out := field mapping "osc_out_args" in
  exists outbound : list oscarg,
    osc_of (trace_of (handleOscMessage s address args midiOut))
      = [ {| osc_address := field mapping "osc_out_address"; osc_args := outbound |} ] /\
    (is_defined out = true -> Str.trim (ToString out) <> "" ->
       Forall2 sent_token (Str.split " " (ToString out)) outbound) /\
    (is_defined out = false \/ Str.trim (ToString out) = "" ->
       Forall2 sent_forwarded args outbound).
Proof.
  intros Hn Hr Ha out. exists (finalArgs mapping args).
  rewrite (handle_resolved_osc _ _ _ _ _ Hn Hr). unfold osc_output. rewrite Ha.
  split; [reflexivity|]. unfold finalArgs. fold out. split.
  - intros Hd Hb. apply String.eqb_neq in Hb. rewrite Hd, Hb. simpl.
    apply Forall2_map_fun. intros token. unfold sent_token.
    now destruct (number_isNaN (parseFloat token)).
  - intros H.
    replace (is_defined out && negb (String.eqb (Str.trim (ToString out)) ""))
      with false.
    + apply Forall2_map_fun. intros v. now destruct v.
    + destruct H as [-> | ->]; [reflexivity|]. simpl. now rewrite andb_false_r.
Qed.

(** The passthrough example of the specification, by the theorem: the
    arguments 1.5 and "x" on a rule without [osc_out_args] go out as 1.5
    float-tagged and "x" as a string, in that order. *)
Lemma osc_output_arguments_witness :
  let s := {| mappings := [forward_rule]; currentSetlist := of_Z 0 |} in
  (normalize "/in" <> "/setlist" /\
   resolve (mappings s) (normalize "/in") [JNum (Dec 15 (-1)); JStr "x"] = Some forward_rule /\
   truthy (field forward_rule "osc_out_address") = true) /\
  osc_of (trace_of (handleOscMessage s "/in" [JNum (Dec 15 (-1)); JStr "x"] None))
    = [ {| osc_address := JStr "/out";
           osc_args := [FloatArg (Dec 15 (-1)); PlainArg (JStr "x")] |} ].
Proof.
  cbv zeta.
  assert (Hn : normalize "/in" <> "/setlist") by (vm_compute; discriminate).
  split; [split; [exact Hn | split; reflexivity]|].
  destruct (osc_output_arguments
              {| mappings := [forward_rule]; currentSetlist := of_Z 0 |}
              "/in" [JNum (Dec 15 (-1)); JStr "x"] None forward_rule
              Hn eq_refl eq_refl) as (outbound & Hsent & _ & Hfwd).
  specialize (Hfwd (or_introl eq_refl)).
  inversion Hfwd as [|v1 a1 vs1 as1 H1 Hrest1 E1 E2]; subst.
  inversion Hrest1 as [|v2 a2 vs2 as2 H2 Hrest2 E1 E2]; subst.
  inversion Hrest2; subst.
  simpl in H1, H2. subst. exact Hsent.
Defined.

(** Tokens of [osc_out_args]: "0.5" and "7" are sent float-tagged, "go" as
    a string. *)
Example override_rule_arguments :
  osc_of (trace_of (handleOscMessage
                      {| mappings := [override_rule]; currentSetlist := of_Z 0 |}
                      "/in" [JNum (of_Z 1)] None))
    = [ {| osc_address := JStr "/out";
           osc_args := [FloatArg (Dec 5 (-1)); PlainArg (JStr "go"); FloatArg (Dec 7 0)] |} ].
Proof. reflexivity. Qed.

Lemma with_exponent_Dec (d1 d2 rest : string) :
  exists m e r, Parse.with_exponent d1 d2 rest = (Dec m e, r).
Proof.
  unfold Parse.with_exponent.
  destruct (Parse.exponent_part rest) as [[x r]|]; eauto.
Qed.

(** A string that starts with a digit has a decimal literal as a prefix,
    whatever follows the digits. *)
Lemma unsigned_decimal_digits (s d r : string) (a : ascii) :
  String.prefix "Infinity" s = false ->
  Str.span_digits s = (String a d, r) ->
  exists m e r', Parse.unsigned_decimal s = Some (Dec m e, r').
Proof.
  intros Hp Hs. unfold Parse.unsigned_decimal. rewrite Hp, Hs.
  destruct r as [|c r].
  - destruct (with_exponent_Dec (String a d) "" "") as (m & e & r' & ->). eauto.
  - destruct c as [[] [] [] [] [] [] [] []];
      destruct (Str.span_digits r) as [d2 r2]; cbv beta iota;
      match goal with
      | |- context [Parse.with_exponent ?x ?y ?z] =>
          destruct (with_exponent_Dec x y z) as (m & e & r' & ->); eauto
      end.
Qed.

Lemma parseFloat_digit (a : ascii) (rest : string) :
  Str.is_digit a = true -> number_isNaN (parseFloat (String a rest)) = false.
Proof.
  intros Ha.
  assert (Hspace : Str.is_space a = false)
    by (destruct a as [[] [] [] [] [] [] [] []]; try discriminate; reflexivity).
  assert (Hlit : Parse.decimal_literal (String a rest)
                 = Parse.unsigned_decimal (String a rest))
    by (destruct a as [[] [] [] [] [] [] [] []]; try discriminate; reflexivity).
  assert (Hp : String.prefix "Infinity" (String a rest) = false)
    by (destruct a as [[] [] [] [] [] [] [] []]; try discriminate; reflexivity).
  unfold parseFloat. simpl Str.trimStart. rewrite Hspace, Hlit.
  assert (Hs : Str.span_digits (String a rest)
               = (String a (fst (Str.span_digits rest)), snd (Str.span_digits rest)))
    by (simpl; rewrite Ha; now destruct (Str.span_digits rest)).
  destruct (unsigned_decimal_digits _ _ _ _ Hp Hs) as (m & e & r' & ->).
  reflexivity.
Qed.

(** C7, at inputs where the OSC output departs from it.  The row with the
    [osc_out_args] cell [192.168.1.10 5th 10%] is loaded with that text,
    which splits into three tokens; none of them is a number ([Number]
    rejects each, and it is by that test that the loader tells a number
    from a string).  The claim keeps such tokens as strings; the handler
    sends the floats 192.168, 5 and 10, because [parseFloat] reads a number
    off the front of a token and ignores the rest: for every token that
    starts with a digit its result is a number, whatever follows the
    digit.  And a row whose [osc_out_args] cell is
    blank (one space) does not forward the received arguments, as the claim
    has it for a blank field: the loader stores the number 0 for that cell
    and the handler sends the one argument 0. *)
Theorem numeric_prefix_token_sent_as_float :
  field ip_rule "osc_out_args" = JStr "192.168.1.10 5th 10%" /\
  Str.split " " (ToString (field ip_rule "osc_out_args"))
    = ["192.168.1.10"; "5th"; "10%"] /\
  (Number_of_string "192.168.1.10" = NaN /\ Number_of_string "5th" = NaN /\
   Number_of_string "10%" = NaN) /\
  osc_of (trace_of (handleOscMessage
                      {| mappings := [ip_rule]; currentSetlist := of_Z 0 |}
                      "/ip" [] None))
    = [ {| osc_address := JStr "/target";
           osc_args := [FloatArg (Dec 192168 (-3)); FloatArg (Dec 5 0);
                        FloatArg (Dec 10 0)] |} ] /\
  Forall (fun digit => forall rest,
            number_isNaN (parseFloat (String digit rest)) = false)
         (list_ascii_of_string "0123456789") /\
  field blank_out_rule "osc_out_args" = JNum (Dec 0 0) /\
  osc_of (trace_of (handleOscMessage
                      {| mappings := [blank_out_rule]; currentSetlist := of_Z 0 |}
                      "/in" [JNum (of_Z 7); JStr "x"] None))
    = [ {| osc_address := JStr "/out"; osc_args := [FloatArg (Dec 0 0)] |} ].
Proof.
  split; [reflexivity|]. split; [reflexivity|].
  split; [repeat split|]. split; [reflexivity|].
  split; [|split; reflexivity].
  simpl list_ascii_of_string.
  repeat (constructor; [intros rest; apply parseFloat_digit; reflexivity|]).
  constructor.
Qed.

(** *** The MIDI output *)

(** C8. When the handler, with a device open, resolves a rule that has a
    channel and whose [midi_type] is cc (with a controller) or pc, it sends
    exactly one MIDI message: for cc a control change with the rule's
    controller, for pc a program change (which has no controller field),
    each on the rule's channel and with the value [midi_value] if the rule
    defines it, else the first received argument if that is a number, else
    0. *)
Theorem cc_pc_value (s : session) (address : string) (args : list jsval)
  (device : MidiOutput) (mapping : Mapping) :
  normalize address <> "/setlist" ->
  resolve (mappings s) (normalize address) args = Some mapping ->
  is_defined (field mapping "midi_channel") = true ->
  let value :=
    match field mapping "midi_value", first args with
    | JUndef, JNum n => JNum n
    | JUndef, _ => JNum (of_Z 0)
    | v, _ => v
    end in
  let sent := midi_of (trace_of (handleOscMessage s address args (Some device))) in
  (field mapping "midi_type" = JStr "cc" ->
   is_defined (field mapping "midi_controller") = true ->
   sent = [ControlChange (field mapping "midi_controller") value
                         (field mapping "midi_channel")]) /\
  (field mapping "midi_type" = JStr "pc" ->
   sent = [ProgramChange value (field mapping "midi_channel")]).
Proof.
  intros Hn Hr Hc value sent. subst sent.
  rewrite (handle_resolved_midi _ _ _ _ _ Hn Hr).
  assert (Hv : midi_value_of mapping args = value).
  { unfold midi_value_of, value, is_defined, is_number.
    destruct (field mapping "midi_value"); try reflexivity.
    now destruct (first args). }
  unfold midi_output. split.
  - intros Ht Hctl. rewrite Ht, Hc, Hctl, Hv. reflexivity.
  - intros Ht. rewrite Ht, Hc, Hv. reflexivity.
Qed.

Lemma cc_pc_value_witness :
  let s := {| mappings := [cc_rule; pc_rule]; currentSetlist := of_Z 0 |} in
  (normalize "/knob" <> "/setlist" /\ normalize "/patch" <> "/setlist") /\
  midi_of (trace_of (handleOscMessage s "/knob" [JNum (of_Z 64)] (Some (Device "QC"))))
    = [ControlChange (JNum (of_Z 7)) (JNum (of_Z 64)) (JNum (of_Z 1))] /\
  midi_of (trace_of (handleOscMessage s "/knob" [JStr "up"] (Some (Device "QC"))))
    = [ControlChange (JNum (of_Z 7)) (JNum (of_Z 0)) (JNum (of_Z 1))] /\
  midi_of (trace_of (handleOscMessage s "/patch" [JNum (of_Z 9)] (Some (Device "QC"))))
    = [ProgramChange (JNum (of_Z 0)) (JNum (of_Z 1))].
Proof.
  cbv zeta.
  assert (Hk : normalize "/knob" <> "/setlist") by (vm_compute; discriminate).
  assert (Hp : normalize "/patch" <> "/setlist") by (vm_compute; discriminate).
  split; [split; assumption|]. split; [|split].
  - exact (proj1 (cc_pc_value
                    {| mappings := [cc_rule; pc_rule]; currentSetlist := of_Z 0 |}
                    "/knob" [JNum (of_Z 64)] (Device "QC") cc_rule Hk eq_refl eq_refl)
                 eq_refl eq_refl).
  - exact (proj1 (cc_pc_value
                    {| mappings := [cc_rule; pc_rule]; currentSetlist := of_Z 0 |}
                    "/knob" [JStr "up"] (Device "QC") cc_rule Hk eq_refl eq_refl)
                 eq_refl eq_refl).
  - exact (proj2 (cc_pc_value
                    {| mappings := [cc_rule; pc_rule]; currentSetlist := of_Z 0 |}
                    "/patch" [JNum (of_Z 9)] (Device "QC") pc_rule Hp eq_refl eq_refl)
                 eq_refl).
Defined.

(** C10. With no MIDI device open the handler sends no MIDI message,
    whatever the resolved rule holds, and it returns normally; its OSC
    output and the session it leaves are those of the same call with a
    device open.  [main] leaves the handle closed when no MIDI output is
    available. *)
Theorem no_device_no_midi (s : session) (address : string) (args : list jsval)
  (device : MidiOutput) :
  let closed := handleOscMessage s address args None in
  let opened := handleOscMessage s address args (Some device) in
  midi_of (trace_of closed) = [] /\
  osc_of (trace_of closed) = osc_of (trace_of opened) /\
  session_after closed = session_after opened /\
  completion_after closed = Normal /\
  (forall name opens, fst (init_midi name [] opens) = None).
Proof.
  cbv zeta.
  assert (Hinit : forall name opens, fst (init_midi name [] opens) = None).
  { intros name opens. unfold init_midi.
    rewrite (bool_decide_eq_false_2 (name ∈ [])) by apply not_elem_of_nil.
    now rewrite andb_false_r. }
  destruct (String.eqb (normalize address) "/setlist") eqn:Hn.
  - unfold handleOscMessage. rewrite Hn. now destruct (first args).
  - apply String.eqb_neq in Hn.
    destruct (resolve (mappings s) (normalize address) args) as [mapping|] eqn:Hr.
    + rewrite !(handle_resolved_osc _ _ _ _ _ Hn Hr).
      rewrite (handle_resolved_midi _ _ _ _ _ Hn Hr).
      rewrite !(handle_resolved _ _ _ _ _ Hn Hr).
      now rewrite midi_output_closed.
    + rewrite !(handle_unresolved _ _ _ _ Hn Hr). auto.
Qed.

(** With the same rules and a device open, the MIDI messages are sent. *)
Example device_open_sends :
  midi_of (trace_of (handleOscMessage
                       {| mappings := [cc_rule]; currentSetlist := of_Z 0 |}
                       "/knob" [JNum (of_Z 64)] (Some (Device "QC"))))
    = [ControlChange (JNum (of_Z 7)) (JNum (of_Z 64)) (JNum (of_Z 1))] /\
  midi_of (trace_of (handleOscMessage
                       {| mappings := [cc_rule]; currentSetlist := of_Z 0 |}
                       "/knob" [JNum (of_Z 64)] None)) = [].
Proof. split; reflexivity. Qed.

(** *** The table over the life of the process *)

(** C9 does not hold: no event of the running process reloads the table,
    and the one load there is, at startup, ends the process when it
    fails. *)
Lemma no_refresh_operation :
  ~ (exists e, reloads_table e) /\
  fst (main unreadable "QC" ["QC"] (fun _ => true)) = Exited 1.
Proof.
  split; [|reflexivity].
  intros (e & catches & s & m & s' & m' & t & Hr & Hneq).
  apply react_keeps_table in Hr as [Hs _]. contradiction.
Qed.

(** C9, amended. The table is loaded once, by [main]: a load that fails
    ends the process with exit status 1; a load that succeeds starts the
    process with the rules of the file, in row order; and over any run,
    whatever messages arrive, a process that is still running holds the
    table it started with. *)
Theorem table_loaded_once :
  (forall file name outputs opens code,
     ending file = StreamError code ->
     fst (main file name outputs opens) = Exited 1) /\
  (forall file name outputs opens,
     ending file = End ->
     exists midiOut,
       fst (main file name outputs opens)
         = Running {| mappings := map mapping_of_row (rows file);
                      currentSetlist := of_Z 0 |} midiOut) /\
  (forall catches events s midiOut s' midiOut' t,
     run catches (Running s midiOut) events = (Running s' midiOut', t) ->
     mappings s' = mappings s).
Proof.
  split; [|split].
  - intros file name outputs opens code H. unfold main, loadMappings. now rewrite H.
  - intros file name outputs opens H. unfold main, loadMappings. rewrite H.
    destruct (init_midi name outputs opens) as [m t]. now exists m.
  - intros catches events s m s' m' t H. now apply run_keeps_table in H.
Qed.

Lemma table_loaded_once_witness :
  let events := [Message "/fader" [JNum (of_Z 1)]; Message "/setlist" [JNum (of_Z 4)];
                 Message "/other/" []] in
  let started := Running {| mappings := [fader_rule]; currentSetlist := of_Z 0 |}
                         (Some (Device "QC")) in
  ending unreadable = StreamError "ENOENT" /\
  fst (main unreadable "QC" ["QC"] (fun _ => true)) = Exited 1 /\
  fst (main one_row "QC" ["QC"] (fun _ => true)) = started /\
  mappings {| mappings := [fader_rule]; currentSetlist := of_Z 4 |} = [fader_rule] /\
  fst (run true started events)
    = Running {| mappings := [fader_rule]; currentSetlist := of_Z 4 |}
              (Some (Device "QC")).
Proof.
  cbv zeta. split; [reflexivity|]. split; [|split; [reflexivity|split]].
  - exact (proj1 table_loaded_once unreadable "QC" ["QC"] (fun _ => true) "ENOENT" eq_refl).
  - exact (proj2 (proj2 table_loaded_once) true
             [Message "/fader" [JNum (of_Z 1)]; Message "/setlist" [JNum (of_Z 4)];
              Message "/other/" []]
             {| mappings := [fader_rule]; currentSetlist := of_Z 0 |}
             (Some (Device "QC"))
             {| mappings := [fader_rule]; currentSetlist := of_Z 4 |}
             (Some (Device "QC")) _ eq_refl).
  - reflexivity.
Defined.

(** * Further properties of the dispatcher *)

(** ** More on resolution *)

Lemma resolve_first_match_witness :
  resolve [exact_rule; any_rule] "/a" [JNum (of_Z 2)] = Some any_rule /\
  exists before after,
    [exact_rule; any_rule] = (before ++ any_rule :: after)%list /\
    (field any_rule "osc_in_address" = JStr "/a" /\
     (truthy (field any_rule "osc_in_args") = false \/
      Str.split " " (ToString (field any_rule "osc_in_args"))
        = map ToString [JNum (of_Z 2)])) /\
    Forall (fun r => ~ (field r "osc_in_address" = JStr "/a" /\
                        (truthy (field r "osc_in_args") = false \/
                         Str.split " " (ToString (field r "osc_in_args"))
                           = map ToString [JNum (of_Z 2)]))) before.
Proof.
  split; [reflexivity|].
  apply (proj1 (resolve_first_match [exact_rule; any_rule] "/a" [JNum (of_Z 2)] any_rule)).
  reflexivity.
Defined.

Lemma find_app_first {A : Type} (p : A -> bool) (l1 l2 : list A) :
  List.find p (l1 ++ l2)%list =
    match List.find p l1 with
    | Some x => Some x
    | None => List.find p l2
    end.
Proof. induction l1 as [|x l1 IH]; simpl; [reflexivity|]. now destruct (p x). Qed.

Lemma rule_matches_strings (a : string) (args args' : list jsval) (m : Mapping) :
  map ToString args = map ToString args' ->
  rule_matches a args m = rule_matches a args' m.
Proof. intros H. unfold rule_matches. now rewrite H. Qed.

(** The resolver sees the received arguments only through their string
    representations: two argument lists that print alike (the number 1 and
    the string "1", say) resolve to the same rule in every table. *)
Theorem resolution_ignores_argument_types (table : list Mapping) (a : string)
  (args args' : list jsval) :
  map ToString args = map ToString args' ->
  resolve table a args = resolve table a args'.
Proof.
  intros H. unfold resolve. induction table as [|r table IH]; simpl; [reflexivity|].
  now rewrite (rule_matches_strings a args args' r H), IH.
Qed.

Lemma resolution_ignores_argument_types_witness :
  map ToString [JNum (of_Z 1)] = map ToString [JStr "1"] /\
  resolve [exact_rule; any_rule] "/a" [JNum (of_Z 1)]
    = resolve [exact_rule; any_rule] "/a" [JStr "1"] /\
  resolve [exact_rule; any_rule] "/a" [JStr "1"] = Some exact_rule.
Proof.
  split; [reflexivity|]. split; [|reflexivity].
  apply (resolution_ignores_argument_types [exact_rule; any_rule] "/a"
           [JNum (of_Z 1)] [JStr "1"]).
  reflexivity.
Defined.

(** Resolution in a table made of two parts: the first part decides, and
    the second is consulted only when the first has no match. *)
Theorem resolve_concatenation (t1 t2 : list Mapping) (a : string) (args : list jsval) :
  resolve (t1 ++ t2)%list a args =
    match resolve t1 a args with
    | Some m => Some m
    | None => resolve t2 a args
    end.
Proof. apply find_app_first. Qed.

(** A rule without argument filter hides every later rule of its address:
    whatever the arguments, the rule resolved for that address stands at
    the position of the unfiltered rule or before it. *)
Theorem wildcard_shadows_later_rules (before after : list Mapping) (w m : Mapping)
  (a : string) (args : list jsval) :
  field w "osc_in_address" = JStr a ->
  truthy (field w "osc_in_args") = false ->
  resolve (before ++ w :: after)%list a args = Some m ->
  exists i : nat, (i <= length before)%nat /\ (before ++ w :: after)%list !! i = Some m.
Proof.
  intros Ha Hw H. unfold resolve in H. rewrite find_app_first in H.
  destruct (List.find (rule_matches a args) before) as [m'|] eqn:Hb.
  - injection H as <-.
    apply (proj1 (resolve_Some before a args m')) in Hb as (b & af & -> & _ & _).
    exists (length b). split.
    + rewrite length_app. simpl. lia.
    + rewrite <- app_assoc. simpl. apply list_lookup_middle. reflexivity.
  - simpl in H.
    assert (Hm : rule_matches a args w = true)
      by (apply rule_matches_iff; split; [exact Ha | now left]).
    rewrite Hm in H. injection H as <-.
    exists (length before). split; [lia|]. now apply list_lookup_middle.
Qed.

Lemma wildcard_shadows_later_rules_witness :
  resolve ([exact_rule] ++ any_rule :: [fader_rule; exact_rule])%list "/a" [JNum (of_Z 7)]
    = Some any_rule /\
  exists i : nat, (i <= length [exact_rule])%nat /\
    ([exact_rule] ++ any_rule :: [fader_rule; exact_rule])%list !! i = Some any_rule.
Proof.
  split; [reflexivity|].
  apply (wildcard_shadows_later_rules [exact_rule] [fader_rule; exact_rule]
           any_rule any_rule "/a" [JNum (of_Z 7)]); reflexivity.
Defined.

Lemma length_append (s t : string) :
  String.length (s ++ t) = (String.length s + String.length t)%nat.
Proof. induction s as [|a s IH]; simpl; [reflexivity | now rewrite IH]. Qed.

Lemma append_one_neq (s : string) (c : ascii) : s <> s ++ String c "".
Proof.
  intros H. apply (f_equal String.length) in H.
  rewrite length_append in H. simpl in H. lia.
Qed.

(** A rule whose [osc_in_address] ends with a slash is out of reach of its
    own address: only one slash is stripped from the received address, so
    the rule matches a message only when the received address is the rule's
    address followed by one more slash; a message sent to the rule's
    address as written, with or without its last slash, never matches. *)
Theorem slash_terminated_rule (m : Mapping) (r : string) :
  field m "osc_in_address" = JStr r ->
  Str.endsWith r "/" = true ->
  (forall address args,
     rule_matches (normalize address) args m = true -> address = r ++ "/") /\
  (forall args, rule_matches (normalize r) args m = false) /\
  (forall args, rule_matches (normalize (Str.slice_0_m1 r)) args m = false).
Proof.
  intros Hm Hr.
  assert (Hmain : forall address args,
             rule_matches (normalize address) args m = true -> address = r ++ "/").
  { intros address args H. apply rule_matches_iff in H as [H _].
    rewrite Hm in H. injection H as H.
    destruct (Str.endsWith address "/") eqn:E.
    - apply endsWith_inv in E. unfold normalize in H.
      assert (E' : Str.endsWith address "/" = true)
        by (rewrite E; apply endsWith_snoc).
      rewrite E' in H. rewrite H. exact E.
    - rewrite (normalize_no_slash _ E) in H. congruence. }
  split; [exact Hmain|]. split; intros args.
  - destruct (rule_matches (normalize r) args m) eqn:E; [|reflexivity].
    apply Hmain in E. now apply append_one_neq in E.
  - destruct (rule_matches (normalize (Str.slice_0_m1 r)) args m) eqn:E; [|reflexivity].
    apply Hmain in E. apply endsWith_inv in Hr. rewrite E in Hr at 1.
    apply (f_equal String.length) in Hr. rewrite !length_append in Hr.
    simpl in Hr. lia.
Qed.

Lemma slash_terminated_rule_witness :
  (field slash_rule "osc_in_address" = JStr "/foo/" /\ Str.endsWith "/foo/" "/" = true) /\
  resolve [slash_rule] (normalize "/foo//") [] = Some slash_rule /\
  rule_matches (normalize "/foo/") [] slash_rule = false /\
  rule_matches (normalize "/foo") [] slash_rule = false.
Proof.
  split; [split; reflexivity|]. split; [reflexivity|].
  destruct (slash_terminated_rule slash_rule "/foo/" eq_refl eq_refl) as (_ & H1 & H2).
  split; [exact (H1 []) | exact (H2 [])].
Defined.

(** ** The loader *)

Lemma field_of_row (row : gmap string string) (k : string) :
  field (mapping_of_row row) k =
    match row !! k with
    | Some cell => convert_cell cell
    | None => JUndef
    end.
Proof.
  unfold field, mapping_of_row. rewrite lookup_fmap. now destruct (row !! k).
Qed.

Lemma convert_cell_cases (cell : string) :
  (cell = "" /\ convert_cell cell = JUndef) \/
  (cell <> "" /\ Number_of_string cell = NaN /\ convert_cell cell = JStr cell) \/
  (cell <> "" /\ Number_of_string cell <> NaN /\
   convert_cell cell = JNum (Number_of_string cell)).
Proof.
  unfold convert_cell. destruct (String.eqb cell "") eqn:E.
  - apply String.eqb_eq in E. left. now subst.
  - apply String.eqb_neq in E. right. simpl.
    destruct (Number_of_string cell) eqn:N; simpl.
    + left. auto.
    + right. repeat split; auto; discriminate.
    + right. repeat split; auto; discriminate.
Qed.

(** What [loadMappings] can put in a rule.  A property is never the empty
    string and never [NaN]; it is [undefined] exactly for a missing or
    empty cell, a string exactly for a non-empty cell that [Number] rejects
    (and then it is the cell, unchanged), a number exactly for a non-empty
    cell that [Number] accepts; and it is falsy exactly for a missing or
    empty cell and for a cell that [Number] reads as zero. *)
Theorem loaded_field (row : gmap string string) (k : string) :
  let v := field (mapping_of_row row) k in
  v <> JStr "" /\
  v <> JNum NaN /\
  (v = JUndef <-> row !! k = None \/ row !! k = Some "") /\
  (forall s, v = JStr s <->
             row !! k = Some s /\ s <> "" /\ Number_of_string s = NaN) /\
  (forall n, v = JNum n <->
             exists cell, row !! k = Some cell /\ cell <> "" /\
                          Number_of_string cell = n /\ n <> NaN) /\
  (truthy v = false <->
   row !! k = None \/ row !! k = Some "" \/
   exists cell e, row !! k = Some cell /\ Number_of_string cell = Dec 0 e).
Proof.
  cbv zeta. rewrite field_of_row. destruct (row !! k) as [cell|].
  2:{ split; [discriminate|]. split; [discriminate|]. split; [split; auto|].
      split; [|split].
      - intros s. split; [discriminate | intros [H _]; discriminate].
      - intros n. split; [discriminate | intros (c & H & _); discriminate].
      - split; auto. }
  destruct (convert_cell_cases cell) as [[-> ->] | [(Hne & HN & ->) | (Hne & HN & ->)]].
  - split; [discriminate|]. split; [discriminate|]. split; [split; auto|].
    split; [|split].
    + intros s. split; [discriminate | intros ([= <-] & H & _); congruence].
    + intros n. split; [discriminate | intros (c & [= <-] & H & _); congruence].
    + split; auto.
  - split; [congruence|]. split; [discriminate|]. split; [|split; [|split]].
    + split; [discriminate | intros [H | [= H]]; [discriminate | congruence]].
    + intros s. split; [intros [= <-]; auto | intros ([= <-] & _); reflexivity].
    + intros n. split; [discriminate | intros (c & [= <-] & _ & H & H'); congruence].
    + simpl. assert (String.eqb cell "" = false) as -> by now apply String.eqb_neq.
      split; [discriminate|].
      intros [H | [[= H] | (c & e & [= <-] & H)]]; try discriminate; congruence.
  - split; [discriminate|]. split; [congruence|]. split; [|split; [|split]].
    + split; [discriminate | intros [H | [= H]]; [discriminate | congruence]].
    + intros s. split; [discriminate | intros ([= <-] & _ & H); congruence].
    + intros n. split.
      * intros [= <-]. exists cell. auto.
      * intros (c & [= <-] & _ & <- & _). reflexivity.
    + simpl. destruct (Number_of_string cell) as [|b|z e] eqn:N; simpl.
      * congruence.
      * split; [discriminate|].
        intros [H | [[= H] | (c & e & [= <-] & H)]]; try discriminate; congruence.
      * rewrite negb_false_iff, Z.eqb_eq. split.
        -- intros ->. right. right. exists cell, e. auto.
        -- intros [H | [[= H] | (c & e' & [= <-] & H)]]; try discriminate; congruence.
Qed.

Lemma loaded_field_witness :
  fader_row !! "osc_in_args" = Some "0" /\
  Number_of_string "0" = Dec 0 0 /\
  truthy (field (mapping_of_row fader_row) "osc_in_args") = false /\
  field (mapping_of_row fader_row) "osc_in_address" = JStr "/fader".
Proof.
  split; [reflexivity|]. split; [reflexivity|].
  destruct (loaded_field fader_row "osc_in_args") as (_ & _ & _ & _ & _ & Hf).
  destruct (loaded_field fader_row "osc_in_address") as (_ & _ & _ & Hs & _).
  split.
  - apply (proj2 Hf). right. right. exists "0", 0. split; reflexivity.
  - apply (proj2 (Hs "/fader")). split; [reflexivity|]. split; [discriminate | reflexivity].
Defined.

Lemma trim_slash (rest : string) :
  Str.trim (String "/" rest) = String "/" (Str.trimEnd rest).
Proof.
  unfold Str.trim. change (Str.trimStart (String "/" rest)) with (String "/" rest).
  simpl. now destruct (Str.trimEnd rest).
Qed.

Lemma Number_of_address (rest : string) : Number_of_string (String "/" rest) = NaN.
Proof. unfold Number_of_string. rewrite trim_slash. reflexivity. Qed.



(** ** More on the handler *)

Lemma is_string_true (v : jsval) (t : string) : is_string v t = true <-> v = JStr t.
Proof.
  unfold is_string. destruct v as [| n | x]; try (split; discriminate).
  rewrite String.eqb_eq. split; congruence.
Qed.

Lemma is_string_false (v : jsval) (t : string) : v <> JStr t -> is_string v t = false.
Proof.
  intros H. destruct (is_string v t) eqn:E; [|reflexivity].
  apply is_string_true in E. contradiction.
Qed.

(** The note rules.  With a device open and a channel, a note_on or
    note_off rule that has both a note and a velocity sends exactly one
    note message, with the rule's note, velocity and channel whatever the
    received arguments are; when the note or the velocity is missing it
    sends nothing. *)
Theorem note_messages (s : session) (address : string) (args : list jsval)
  (device : MidiOutput) (mapping : Mapping) :
  normalize address <> "/setlist" ->
  resolve (mappings s) (normalize address) args = Some mapping ->
  is_defined (field mapping "midi_channel") = true ->
  let sent := midi_of (trace_of (handleOscMessage s address args (Some device))) in
  let complete :=
    is_defined (field mapping "midi_note") && is_defined (field mapping "midi_velocity") in
  (field mapping "midi_type" = JStr "note_on" ->
   sent = if complete
          then [NoteOn (field mapping "midi_note") (field mapping "midi_velocity")
                       (field mapping "midi_channel")]
          else []) /\
  (field mapping "midi_type" = JStr "note_off" ->
   sent = if complete
          then [NoteOff (field mapping "midi_note") (field mapping "midi_velocity")
                        (field mapping "midi_channel")]
          else []).
Proof.
  intros Hn Hr Hc sent complete. subst sent.
  rewrite (handle_resolved_midi _ _ _ _ _ Hn Hr). unfold midi_output.
  split; intros Ht; rewrite Ht, Hc; simpl; fold complete; now destruct complete.
Qed.

Lemma note_messages_witness :
  let s := {| mappings := [note_rule]; currentSetlist := of_Z 0 |} in
  (normalize "/pad" <> "/setlist" /\
   resolve (mappings s) (normalize "/pad") [JNum (of_Z 3)] = Some note_rule /\
   is_defined (field note_rule "midi_channel") = true) /\
  midi_of (trace_of (handleOscMessage s "/pad" [JNum (of_Z 3)] (Some (Device "QC"))))
    = [NoteOn (JNum (of_Z 60)) (JNum (of_Z 100)) (JNum (of_Z 0))].
Proof.
  cbv zeta.
  assert (Hn : normalize "/pad" <> "/setlist") by (vm_compute; discriminate).
  split; [split; [exact Hn | split; reflexivity]|].
  exact (proj1 (note_messages {| mappings := [note_rule]; currentSetlist := of_Z 0 |}
                  "/pad" [JNum (of_Z 3)] (Device "QC") note_rule Hn eq_refl eq_refl)
               eq_refl).
Defined.

(** When a leg is skipped.  A resolved rule with a falsy [osc_out_address]
    sends no OSC message.  It sends no MIDI message, and the handler
    returns normally, when its [midi_type] is falsy, or its [midi_channel]
    is undefined, or its [midi_type] is none of the five the switch knows,
    or it is a cc rule without controller, or a qc_preset rule with a falsy
    preset identifier. *)
Theorem output_legs_skipped (s : session) (address : string) (args : list jsval)
  (midiOut : option MidiOutput) (mapping : Mapping) :
  normalize address <> "/setlist" ->
  resolve (mappings s) (normalize address) args = Some mapping ->
  (truthy (field mapping "osc_out_address") = false ->
   osc_of (trace_of (handleOscMessage s address args midiOut)) = []) /\
  (truthy (field mapping "midi_type") = false \/
   is_defined (field mapping "midi_channel") = false \/
   (forall t, In t known_midi_types -> field mapping "midi_type" <> JStr t) \/
   (field mapping "midi_type" = JStr "cc" /\
    is_defined (field mapping "midi_controller") = false) \/
   (field mapping "midi_type" = JStr "qc_preset" /\
    truthy (field mapping "qc_preset_id") = false) ->
   midi_of (trace_of (handleOscMessage s address args midiOut)) = [] /\
   completion_after (handleOscMessage s address args midiOut) = Normal).
Proof.
  intros Hn Hr. split.
  - intros H. rewrite (handle_resolved_osc _ _ _ _ _ Hn Hr).
    unfold osc_output. now rewrite H.
  - intros H. rewrite (handle_resolved_midi _ _ _ _ _ Hn Hr).
    rewrite (handle_resolved _ _ _ _ _ Hn Hr). unfold completion_after. simpl.
    unfold midi_output. destruct midiOut as [d|]; [|auto].
    destruct H as [H | [H | [H | [[H1 H2] | [H1 H2]]]]].
    + now rewrite H.
    + rewrite H, andb_false_r. auto.
    + destruct (truthy _ && is_defined _); [|auto].
      rewrite !is_string_false
        by (apply H; unfold known_midi_types; simpl; auto 10).
      auto.
    + rewrite H1, H2. simpl. now destruct (is_defined (field mapping "midi_channel")).
    + rewrite H1, H2. simpl. now destruct (is_defined (field mapping "midi_channel")).
Qed.

Lemma output_legs_skipped_witness :
  let s := {| mappings := [any_rule; forward_rule] ; currentSetlist := of_Z 0 |} in
  (normalize "/a" <> "/setlist" /\
   resolve (mappings s) (normalize "/a") [] = Some any_rule /\
   truthy (field any_rule "midi_type") = false) /\
  midi_of (trace_of (handleOscMessage s "/a" [] (Some (Device "QC")))) = [] /\
  completion_after (handleOscMessage s "/a" [] (Some (Device "QC"))) = Normal.
Proof.
  cbv zeta.
  assert (Hn : normalize "/a" <> "/setlist") by (vm_compute; discriminate).
  split; [split; [exact Hn | split; reflexivity]|].
  exact (proj2 (output_legs_skipped
                  {| mappings := [any_rule; forward_rule] ; currentSetlist := of_Z 0 |}
                  "/a" [] (Some (Device "QC")) any_rule Hn eq_refl)
               (or_introl eq_refl)).
Defined.

(** A message that no rule matches is dropped: nothing is sent, the session
    is left as it was and the handler returns normally.  This is so for
    every message, other than on the reserved address, while the table is
    empty (a CSV file with its header line only). *)
Theorem unresolved_message_dropped (s : session) (address : string) (args : list jsval)
  (midiOut : option MidiOutput) :
  normalize address <> "/setlist" ->
  resolve (mappings s) (normalize address) args = None \/ mappings s = [] ->
  osc_of (trace_of (handleOscMessage s address args midiOut)) = [] /\
  midi_of (trace_of (handleOscMessage s address args midiOut)) = [] /\
  session_after (handleOscMessage s address args midiOut) = s /\
  completion_after (handleOscMessage s address args midiOut) = Normal.
Proof.
  intros Hn H.
  assert (Hr : resolve (mappings s) (normalize address) args = None)
    by (destruct H as [H | ->]; [exact H | reflexivity]).
  rewrite (handle_unresolved _ _ _ _ Hn Hr). auto.
Qed.

Lemma unresolved_message_dropped_witness :
  let s := {| mappings := [exact_rule]; currentSetlist := of_Z 0 |} in
  (normalize "/a" <> "/setlist" /\
   resolve (mappings s) (normalize "/a") [JNum (of_Z 2)] = None) /\
  osc_of (trace_of (handleOscMessage s "/a" [JNum (of_Z 2)] (Some (Device "QC")))) = [] /\
  midi_of (trace_of (handleOscMessage s "/a" [JNum (of_Z 2)] (Some (Device "QC")))) = [].
Proof.
  cbv zeta.
  assert (Hn : normalize "/a" <> "/setlist") by (vm_compute; discriminate).
  split; [split; [exact Hn | reflexivity]|].
  destruct (unresolved_message_dropped
              {| mappings := [exact_rule]; currentSetlist := of_Z 0 |}
              "/a" [JNum (of_Z 2)] (Some (Device "QC")) Hn (or_introl eq_refl))
    as (Ho & Hm & _).
  split; assumption.
Defined.

Lemma preset_midi_length (presetId channel setlist : jsval) :
  (length (midi_of (snd (sendQuadCortexPreset presetId channel setlist))) <= 3)%nat.
Proof.
  unfold sendQuadCortexPreset. destruct presetId as [| n | id]; simpl; try lia.
  destruct (preset_match id) as [[d l]|]; simpl; [|lia].
  destruct (_ || _); simpl; lia.
Qed.

Lemma midi_output_length (cs : number) (mapping : Mapping) (args : list jsval)
  (midiOut : option MidiOutput) :
  (length (midi_of (snd (midi_output cs mapping args midiOut))) <= 3)%nat.
Proof.
  unfold midi_output. destruct midiOut; [|simpl; lia].
  repeat (match goal with
          | |- context [if ?b then _ else _] => destruct b
          end; try (simpl; lia)).
  all: apply preset_midi_length.
Qed.

(** One message in, at most two actions out: whatever the session, the
    message and the device, the handler sends at most one OSC message and at
    most three MIDI messages, and no MIDI message at all without a device. *)
Theorem output_bounds (s : session) (address : string) (args : list jsval)
  (midiOut : option MidiOutput) :
  (length (osc_of (trace_of (handleOscMessage s address args midiOut))) <= 1)%nat /\
  (length (midi_of (trace_of (handleOscMessage s address args midiOut))) <= 3)%nat.
Proof.
  destruct (String.eqb (normalize address) "/setlist") eqn:Hn.
  - unfold handleOscMessage. rewrite Hn. destruct (first args); simpl; lia.
  - apply String.eqb_neq in Hn.
    destruct (resolve (mappings s) (normalize address) args) as [mapping|] eqn:Hr.
    + rewrite (handle_resolved_osc _ _ _ _ _ Hn Hr).
      rewrite (handle_resolved_midi _ _ _ _ _ Hn Hr). split.
      * unfold osc_output. destruct (truthy _); simpl; lia.
      * apply midi_output_length.
    + rewrite (handle_unresolved _ _ _ _ Hn Hr). simpl. lia.
Qed.

Lemma preset_string_normal (id : string) (channel setlist : jsval) :
  fst (sendQuadCortexPreset (JStr id) channel setlist) = Normal.
Proof.
  unfold sendQuadCortexPreset. destruct (preset_match id) as [[d l]|]; [|reflexivity].
  now destruct (_ || _).
Qed.

Lemma midi_output_TypeError (cs : number) (mapping : Mapping) (args : list jsval)
  (midiOut : option MidiOutput) :
  fst (midi_output cs mapping args midiOut) = TypeError <->
  exists device n,
    midiOut = Some device /\
    field mapping "midi_type" = JStr "qc_preset" /\
    is_defined (field mapping "midi_channel") = true /\
    field mapping "qc_preset_id" = JNum n /\
    number_truthy n = true.
Proof.
  split.
  - unfold midi_output. destruct midiOut as [device|]; [|discriminate].
    destruct (field mapping "midi_type") as [| nn | t] eqn:Hty; simpl.
    + discriminate.
    + now destruct (number_truthy nn && is_defined (field mapping "midi_channel")).
    + destruct (is_defined (field mapping "midi_channel")) eqn:Hc;
        [|rewrite andb_false_r; discriminate].
      destruct (negb (String.eqb t "")); simpl; [|discriminate].
      destruct (String.eqb t "note_on");
        [now destruct (is_defined _ && is_defined _)|].
      destruct (String.eqb t "note_off");
        [now destruct (is_defined _ && is_defined _)|].
      destruct (String.eqb t "cc");
        [now destruct (is_defined (field mapping "midi_controller"))|].
      destruct (String.eqb t "pc"); [discriminate|].
      destruct (String.eqb t "qc_preset") eqn:Et; [|discriminate].
      apply String.eqb_eq in Et. subst t.
      destruct (field mapping "qc_preset_id") as [| n | id] eqn:Hid.
      * discriminate.
      * simpl. destruct (number_truthy n) eqn:Hn; [|discriminate].
        intros _. exists device, n. auto.
      * cbn [truthy]. destruct (negb (String.eqb id "")); [|discriminate].
        now rewrite preset_string_normal.
  - intros (device & n & -> & Hty & Hc & Hid & Hn).
    unfold midi_output. rewrite Hty, Hc, Hid. simpl. now rewrite Hn.
Qed.

(** The one way the handler can fail.  A [TypeError] escapes it exactly
    when, with a device open, the resolved rule is a qc_preset rule with a
    channel whose preset identifier is a number other than zero (what the
    loader makes of a cell such as 12): the encoder then calls [match] on a
    number.  No MIDI message is sent in that case. *)
Theorem type_error_only_from_numeric_preset (s : session) (address : string)
  (args : list jsval) (midiOut : option MidiOutput) :
  (completion_after (handleOscMessage s address args midiOut) = TypeError <->
   normalize address <> "/setlist" /\
   exists device mapping n,
     midiOut = Some device /\
     resolve (mappings s) (normalize address) args = Some mapping /\
     field mapping "midi_type" = JStr "qc_preset" /\
     is_defined (field mapping "midi_channel") = true /\
     field mapping "qc_preset_id" = JNum n /\
     number_truthy n = true) /\
  (completion_after (handleOscMessage s address args midiOut) = TypeError ->
   midi_of (trace_of (handleOscMessage s address args midiOut)) = []).
Proof.
  destruct (String.eqb (normalize address) "/setlist") eqn:Hn.
  - assert (Hc : completion_after (handleOscMessage s address args midiOut) = Normal)
      by (unfold handleOscMessage; rewrite Hn; now destruct (first args)).
    rewrite Hc. apply String.eqb_eq in Hn.
    split; [split; [discriminate | intros [H _]; contradiction] | discriminate].
  - apply String.eqb_neq in Hn.
    destruct (resolve (mappings s) (normalize address) args) as [mapping|] eqn:Hr.
    + rewrite (handle_resolved_midi _ _ _ _ _ Hn Hr).
      rewrite (handle_resolved _ _ _ _ _ Hn Hr). unfold completion_after. simpl.
      split.
      * rewrite midi_output_TypeError. split.
        -- intros (d & n & H). split; [exact Hn|]. exists d, mapping, n. tauto.
        -- intros (_ & d & m & n & Hd & [= <-] & H). exists d, n. tauto.
      * intros H. apply midi_output_TypeError in H
          as (d & n & -> & Hty & Hc & Hid & Hnum).
        unfold midi_output. rewrite Hty, Hc, Hid. simpl. now rewrite Hnum.
    + rewrite (handle_unresolved _ _ _ _ Hn Hr). unfold completion_after. simpl.
      split; [split; [discriminate|] | discriminate].
      intros (_ & d & m & n & _ & H & _). discriminate.
Qed.

Lemma type_error_only_from_numeric_preset_witness :
  let s := {| mappings := [numeric_preset_rule]; currentSetlist := of_Z 0 |} in
  field numeric_preset_rule "qc_preset_id" = JNum (Dec 12 0) /\
  completion_after (handleOscMessage s "/preset" [] (Some (Device "QC"))) = TypeError /\
  midi_of (trace_of (handleOscMessage s "/preset" [] (Some (Device "QC")))) = [] /\
  osc_of (trace_of (handleOscMessage s "/preset" [] (Some (Device "QC"))))
    = [ {| osc_address := JStr "/out"; osc_args := [] |} ].
Proof.
  cbv zeta.
  assert (Hn : normalize "/preset" <> "/setlist") by (vm_compute; discriminate).
  destruct (type_error_only_from_numeric_preset
              {| mappings := [numeric_preset_rule]; currentSetlist := of_Z 0 |}
              "/preset" [] (Some (Device "QC"))) as [Hiff Hmidi].
  assert (Hc : completion_after
                 (handleOscMessage
                    {| mappings := [numeric_preset_rule]; currentSetlist := of_Z 0 |}
                    "/preset" [] (Some (Device "QC"))) = TypeError).
  { apply (proj2 Hiff). split; [exact Hn|].
    exists (Device "QC"), numeric_preset_rule, (Dec 12 0).
    repeat (split; [reflexivity|]). reflexivity. }
  split; [reflexivity|]. split; [exact Hc|]. split; [exact (Hmidi Hc) | reflexivity].
Defined.

(** ** More on runs *)

Lemma run_app (catches : bool) (p : process) (l1 l2 : list event) :
  run catches p (l1 ++ l2)%list =
    (fst (run catches (fst (run catches p l1)) l2),
     (snd (run catches p l1) ++ snd (run catches (fst (run catches p l1)) l2))%list).
Proof.
  revert p. induction l1 as [|e l1 IH]; intros p.
  - simpl. now destruct (run catches p l2).
  - change ((e :: l1) ++ l2)%list with (e :: (l1 ++ l2))%list.
    rewrite !run_cons, IH. simpl. now rewrite app_assoc.
Qed.

Lemma run_from_exit (catches : bool) (p : process) (events : list event)
  (s : session) (midiOut : option MidiOutput) :
  fst (run catches p events) = Running s midiOut ->
  exists s0 midiOut0, p = Running s0 midiOut0.
Proof.
  destruct p as [s0 m0|code]; [eauto|]. rewrite run_exited. discriminate.
Qed.

Lemma react_update (catches : bool) (s : session) (midiOut : option MidiOutput)
  (address : string) (rest : list jsval) (n : number) :
  normalize address = "/setlist" ->
  react catches (Running s midiOut) (Message address (JNum n :: rest)) =
    (Running {| mappings := mappings s; currentSetlist := n |} midiOut,
     [ Console Log (Received address "/setlist" (JNum n :: rest));
       Console Log (SetlistUpdated n) ]).
Proof.
  intros Hn. unfold react, handleOscMessage. rewrite Hn. reflexivity.
Qed.

(** The last update wins.  If a run contains a message on the reserved
    address with a numeric first argument and no later event updates the
    setlist, a process that is still running at the end has that number as
    its current setlist, whatever came before. *)
Theorem last_setlist_update_wins (catches : bool) (before after : list event)
  (e : event) (n : number) (s s' : session) (midiOut midiOut' : option MidiOutput)
  (t : list effect) :
  is_update e n ->
  Forall (fun e' => updates_setlist e' = false) after ->
  run catches (Running s midiOut) (before ++ e :: after)%list = (Running s' midiOut', t) ->
  currentSetlist s' = n.
Proof.
  intros (address & rest & -> & Hn) Hafter H.
  rewrite run_app, run_cons in H. apply (f_equal fst) in H. cbn [fst] in H.
  destruct (fst (run catches (Running s midiOut) before)) as [s1 m1|code].
  - rewrite (react_update catches s1 m1 address rest n Hn) in H. cbn [fst] in H.
    destruct (run catches
                (Running {| mappings := mappings s1; currentSetlist := n |} m1) after)
      as [p2 t2] eqn:Hrun.
    cbn [fst] in H. subst p2.
    now rewrite (run_keeps_setlist _ _ _ _ _ _ _ Hafter Hrun).
  - rewrite react_exited in H. cbn [fst] in H. rewrite run_exited in H. discriminate.
Qed.

Lemma last_setlist_update_wins_witness :
  let events := [Message "/setlist" [JNum (of_Z 3)]; Message "/a" [];
                 Message "/setlist/" [JNum (of_Z 7); JStr "x"];
                 Message "/setlist" [JStr "9"]; Message "/a" [JNum (of_Z 1)]] in
  let started := Running {| mappings := [any_rule]; currentSetlist := of_Z 0 |} None in
  is_update (Message "/setlist/" [JNum (of_Z 7); JStr "x"]) (of_Z 7) /\
  exists s' t, run true started events = (Running s' None, t) /\ currentSetlist s' = of_Z 7.
Proof.
  cbv zeta.
  assert (U : is_update (Message "/setlist/" [JNum (of_Z 7); JStr "x"]) (of_Z 7))
    by (exists "/setlist/", [JStr "x"]; split; reflexivity).
  split; [exact U|].
  eexists. eexists. split; [reflexivity|].
  eapply (last_setlist_update_wins true
           [Message "/setlist" [JNum (of_Z 3)]; Message "/a" []]
           [Message "/setlist" [JStr "9"]; Message "/a" [JNum (of_Z 1)]]
           (Message "/setlist/" [JNum (of_Z 7); JStr "x"]) (of_Z 7)
           {| mappings := [any_rule]; currentSetlist := of_Z 0 |} _ None None _ U).
  - repeat constructor.
  - reflexivity.
Defined.

(** The interrupt ends everything.  Whatever is delivered after SIGINT has
    no effect: the run is the run up to and including the signal, and it
    ends in an exited process, with status 0 when the process was still
    running when the signal came. *)
Theorem interrupt_ends_run (catches : bool) (p : process) (before after : list event) :
  run catches p (before ++ SIGINT :: after)%list
    = run catches p (before ++ [SIGINT])%list /\
  (exists code, fst (run catches p (before ++ SIGINT :: after)%list) = Exited code) /\
  (forall s midiOut,
     fst (run catches p before) = Running s midiOut ->
     fst (run catches p (before ++ SIGINT :: after)%list) = Exited 0).
Proof.
  rewrite !run_app.
  assert (H : forall q, exists code,
             run catches q (SIGINT :: after) = run catches q [SIGINT] /\
             fst (run catches q (SIGINT :: after)) = Exited code /\
             (forall s m, q = Running s m -> code = 0)).
  { intros [s m|code].
    - exists 0. rewrite !run_cons. simpl. rewrite run_exited. auto.
    - exists code. rewrite !run_exited. repeat split. discriminate. }
  destruct (H (fst (run catches p before))) as (code & H1 & H2 & H3).
  split; [now rewrite H1|]. cbn [fst]. split.
  - exists code. exact H2.
  - intros s m Hs. rewrite H2. f_equal. now apply (H3 s m).
Qed.

Lemma interrupt_ends_run_witness :
  let started := Running {| mappings := [any_rule]; currentSetlist := of_Z 0 |} None in
  fst (run true started [Message "/a" []]) = Running {| mappings := [any_rule]; currentSetlist := of_Z 0 |} None /\
  fst (run true started ([Message "/a" []] ++ SIGINT :: [Message "/a" []; SIGINT])%list)
    = Exited 0.
Proof.
  cbv zeta. split; [reflexivity|].
  apply (proj2 (proj2 (interrupt_ends_run true
           (Running {| mappings := [any_rule]; currentSetlist := of_Z 0 |} None)
           [Message "/a" []] [Message "/a" []; SIGINT]))
         {| mappings := [any_rule]; currentSetlist := of_Z 0 |} None).
  reflexivity.
Defined.

(** ** More on the preset encoder *)

(** The three messages of a preset. *)
Lemma preset_midi (id : string) (channel setlist : jsval) :
  midi_of (snd (sendQuadCortexPreset (JStr id) channel setlist)) =
    match preset_match id with
    | None => []
    | Some (digits, letter) =>
        let bank := parseInt_digits digits in
        if (bank <? 1) || (32 <? bank) then []
        else [ ControlChange (JNum (of_Z 0)) (JNum (of_Z 0)) channel;
               ControlChange (JNum (of_Z 32)) setlist channel;
               ProgramChange (JNum (of_Z (programChangeNumber bank letter))) channel ]
    end.
Proof.
  unfold sendQuadCortexPreset. destruct (preset_match id) as [[d l]|]; [|reflexivity].
  cbv zeta. now destruct (_ || _).
Qed.

Lemma toUpperCase1_idempotent (c : ascii) :
  Str.toUpperCase1 (Str.toUpperCase1 c) = Str.toUpperCase1 c.
Proof. destruct c as [[] [] [] [] [] [] [] []]; reflexivity. Qed.

Lemma is_digit_toUpperCase1 (c : ascii) :
  Str.is_digit (Str.toUpperCase1 c) = Str.is_digit c.
Proof. destruct c as [[] [] [] [] [] [] [] []]; reflexivity. Qed.

Lemma is_A_H_toUpperCase1 (c : ascii) : is_A_H (Str.toUpperCase1 c) = is_A_H c.
Proof. unfold is_A_H. now rewrite toUpperCase1_idempotent. Qed.

Lemma presetOffset_toUpperCase1 (c : ascii) :
  presetOffset (Str.toUpperCase1 c) = presetOffset c.
Proof. unfold presetOffset. now rewrite toUpperCase1_idempotent. Qed.

Lemma span_digits_snoc (body : string) (c : ascii) :
  Str.span_digits (body ++ String c "") =
    match Str.span_digits body with
    | (d, EmptyString) =>
        if Str.is_digit c then (d ++ String c "", EmptyString) else (d, String c "")
    | (d, r) => (d, r ++ String c "")
    end.
Proof.
  induction body as [|a body IH]; simpl.
  - now destruct (Str.is_digit c).
  - destruct (Str.is_digit a); [|reflexivity].
    rewrite IH. destruct (Str.span_digits body) as [d [|x r]]; [|reflexivity].
    now destruct (Str.is_digit c).
Qed.

Lemma preset_match_upper (body : string) (c : ascii) :
  preset_match (body ++ String (Str.toUpperCase1 c) "") =
    match preset_match (body ++ String c "") with
    | Some (d, l) => Some (d, Str.toUpperCase1 l)
    | None => None
    end.
Proof.
  unfold preset_match. rewrite !span_digits_snoc, is_digit_toUpperCase1.
  destruct (Str.span_digits body) as [d [|x r]].
  - destruct (Str.is_digit c).
    + now destruct (d ++ String c ""), (d ++ String (Str.toUpperCase1 c) "").
    + destruct d as [|a d]; [reflexivity|].
      rewrite is_A_H_toUpperCase1. now destruct (is_A_H c).
  - destruct d as [|a d]; [reflexivity|]. simpl. now destruct r.
Qed.

(** The letter of a preset identifier may be written in either case: an
    identifier and the same identifier with its last character in upper
    case make the encoder send the same MIDI messages (the same three, or
    none when the identifier is rejected). *)
Theorem preset_letter_case (body : string) (c : ascii) (channel setlist : jsval) :
  midi_of (snd (sendQuadCortexPreset (JStr (body ++ String c "")) channel setlist))
  = midi_of (snd (sendQuadCortexPreset
                    (JStr (body ++ String (Str.toUpperCase1 c) "")) channel setlist)).
Proof.
  rewrite !preset_midi, preset_match_upper.
  destruct (preset_match (body ++ String c "")) as [[d l]|]; [|reflexivity].
  cbv zeta. unfold programChangeNumber. now rewrite presetOffset_toUpperCase1.
Qed.

Lemma nat_of_ascii_injective (a b : ascii) : nat_of_ascii a = nat_of_ascii b -> a = b.
Proof.
  intros H. rewrite <- (ascii_nat_embedding a), <- (ascii_nat_embedding b).
  now rewrite H.
Qed.

(** Distinct presets get distinct program numbers: two well-formed
    identifiers with the same program number have the same bank and, up to
    case, the same letter. *)
Theorem program_number_injective (id1 id2 d1 d2 : string) (l1 l2 : ascii) :
  preset_syntax id1 d1 l1 ->
  preset_syntax id2 d2 l2 ->
  programChangeNumber (parseInt_digits d1) l1
    = programChangeNumber (parseInt_digits d2) l2 ->
  parseInt_digits d1 = parseInt_digits d2 /\
  Str.toUpperCase1 l1 = Str.toUpperCase1 l2.
Proof.
  intros (_ & _ & _ & H1) (_ & _ & _ & H2) H.
  pose proof (presetOffset_range l1 H1) as R1.
  pose proof (presetOffset_range l2 H2) as R2.
  unfold programChangeNumber in H.
  assert (Hb : parseInt_digits d1 = parseInt_digits d2) by lia.
  split; [exact Hb|].
  assert (Ho : presetOffset l1 = presetOffset l2) by lia.
  unfold presetOffset in Ho. apply nat_of_ascii_injective. lia.
Qed.

Lemma program_number_injective_witness :
  (preset_syntax "012c" "012" "c" /\ preset_syntax "12C" "12" "C") /\
  programChangeNumber (parseInt_digits "012") "c"
    = programChangeNumber (parseInt_digits "12") "C" /\
  parseInt_digits "012" = parseInt_digits "12" /\
  Str.toUpperCase1 "c" = Str.toUpperCase1 "C".
Proof.
  assert (S1 : preset_syntax "012c" "012" "c") by (apply preset_match_iff; reflexivity).
  assert (S2 : preset_syntax "12C" "12" "C") by (apply preset_match_iff; reflexivity).
  split; [split; assumption|]. split; [reflexivity|].
  exact (program_number_injective "012c" "12C" "012" "12" "c" "C" S1 S2 eq_refl).
Defined.

(** Every program number from 0 to 255 is reached: the identifier made of
    the bank [p / 8 + 1] in decimal and the letter number [p mod 8] of
    A..H makes the encoder send the program change [p], after the two bank
    select messages. *)
Theorem every_program_has_a_preset (p : Z) (channel setlist : jsval) :
  0 <= p <= 255 ->
  midi_of (snd (sendQuadCortexPreset (JStr (preset_of_program p)) channel setlist)) =
    [ ControlChange (JNum (of_Z 0)) (JNum (of_Z 0)) channel;
      ControlChange (JNum (of_Z 32)) setlist channel;
      ProgramChange (JNum (of_Z p)) channel ].
Proof.
  intros Hp.
  set (check := fun q : Z =>
         match preset_match (preset_of_program q) with
         | Some (d, l) =>
             negb ((parseInt_digits d <? 1) || (32 <? parseInt_digits d))
             && (programChangeNumber (parseInt_digits d) l =? q)
         | None => false
         end).
  assert (Hall : forallb (fun n => check (Z.of_nat n)) (seq 0 256) = true)
    by (vm_compute; reflexivity).
  assert (Hc : check p = true).
  { rewrite forallb_forall in Hall. specialize (Hall (Z.to_nat p)).
    rewrite Z2Nat.id in Hall by lia. apply Hall. apply in_seq. lia. }
  unfold check in Hc. rewrite preset_midi.
  destruct (preset_match (preset_of_program p)) as [[d l]|]; [|discriminate].
  apply andb_true_iff in Hc as [Hr He]. apply negb_true_iff in Hr.
  apply Z.eqb_eq in He. cbv zeta. now rewrite Hr, He.
Qed.

Lemma every_program_has_a_preset_witness :
  0 <= 83 <= 255 /\
  preset_of_program 83 = "11D" /\
  midi_of (snd (sendQuadCortexPreset (JStr "11D") (JNum (of_Z 1)) (JNum (of_Z 0)))) =
    [ ControlChange (JNum (of_Z 0)) (JNum (of_Z 0)) (JNum (of_Z 1));
      ControlChange (JNum (of_Z 32)) (JNum (of_Z 0)) (JNum (of_Z 1));
      ProgramChange (JNum (of_Z 83)) (JNum (of_Z 1)) ].
Proof.
  assert (R : 0 <= 83 <= 255) by (split; discriminate).
  split; [exact R|]. split; [reflexivity|].
  exact (every_program_has_a_preset 83 (JNum (of_Z 1)) (JNum (of_Z 0)) R).
Defined.

(** Leading zeros of the bank do not count: a well-formed identifier and
    the same identifier with a zero in front make the encoder send the same
    MIDI messages. *)
Theorem preset_leading_zero (id digits : string) (letter : ascii)
  (channel setlist : jsval) :
  preset_syntax id digits letter ->
  midi_of (snd (sendQuadCortexPreset (JStr (String "0" id)) channel setlist))
  = midi_of (snd (sendQuadCortexPreset (JStr id) channel setlist)).
Proof.
  intros Hs.
  assert (Hz : preset_syntax (String "0" id) (String "0" digits) letter).
  { destruct Hs as (-> & Hne & Hd & Hl).
    split; [reflexivity|]. split; [discriminate|]. split; [exact Hd | exact Hl]. }
  apply preset_match_iff in Hs, Hz. rewrite !preset_midi, Hs, Hz. reflexivity.
Qed.

Lemma preset_leading_zero_witness :
  preset_syntax "7b" "7" "b" /\
  midi_of (snd (sendQuadCortexPreset (JStr "07b") (JNum (of_Z 1)) (JNum (of_Z 0))))
  = midi_of (snd (sendQuadCortexPreset (JStr "7b") (JNum (of_Z 1)) (JNum (of_Z 0)))).
Proof.
  assert (S : preset_syntax "7b" "7" "b") by (apply preset_match_iff; reflexivity).
  split; [exact S|].
  exact (preset_leading_zero "7b" "7" "b" (JNum (of_Z 1)) (JNum (of_Z 0)) S).
Defined.

(** ** The MIDI output and the configuration at startup *)

(** Which device [main] opens.  An opened device is one of the available
    outputs and its constructor returned; it is the configured one when
    that is available, the first output otherwise.  There is no second
    try: when the constructor of the chosen device throws, the handle stays
    closed, whatever other outputs there are. *)
Theorem midi_device_selection (name : string) (outputs : list string)
  (opens : string -> bool) :
  match fst (init_midi name outputs opens) with
  | Some (Device d) =>
      d ∈ outputs /\ opens d = true /\
      (name <> "" -> name ∈ outputs -> d = name) /\
      (name = "" \/ name ∉ outputs -> head outputs = Some d)
  | None =>
      outputs = [] \/
      (name <> "" /\ name ∈ outputs /\ opens name = false) \/
      ((name = "" \/ name ∉ outputs) /\
       exists d, head outputs = Some d /\ opens d = false)
  end.
Proof.
  unfold init_midi.
  destruct (String.eqb name "") eqn:E; simpl.
  - apply String.eqb_eq in E. destruct outputs as [|d ds]; simpl; [now left|].
    unfold open_midi. destruct (opens d) eqn:O; simpl.
    + repeat split; auto; [left | contradiction].
    + right. right. split; [now left | eauto].
  - apply String.eqb_neq in E.
    destruct (bool_decide_reflect (name ∈ outputs)) as [Hin|Hout]; simpl.
    + unfold open_midi. destruct (opens name) eqn:O; simpl.
      * repeat split; auto. intros [H|H]; contradiction.
      * right. left. auto.
    + destruct outputs as [|d ds]; simpl; [now left|].
      unfold open_midi. destruct (opens d) eqn:O; simpl.
      * repeat split; auto; [left | contradiction].
      * right. right. split; [now right | eauto].
Qed.

Lemma midi_device_selection_witness :
  fst (init_midi "QC" ["IAC"; "QC"] (fun _ => true)) = Some (Device "QC") /\
  fst (init_midi "Gone" ["IAC"; "QC"] (fun _ => true)) = Some (Device "IAC") /\
  fst (init_midi "QC" ["IAC"; "QC"] (fun n => negb (String.eqb n "QC"))) = None /\
  ("QC" <> "" /\ "QC" ∈ ["IAC"; "QC"]).
Proof.
  pose proof (midi_device_selection "QC" ["IAC"; "QC"] (fun _ => true)) as H.
  destruct (fst (init_midi "QC" ["IAC"; "QC"] (fun _ => true))) as [[d]|] eqn:E;
    [|discriminate].
  destruct H as (Hin & _ & Hname & _).
  assert (Hne : "QC" <> "") by discriminate.
  assert (Hmem : "QC" ∈ ["IAC"; "QC"]) by apply list_elem_of_further, list_elem_of_here.
  rewrite (Hname Hne Hmem).
  split; [reflexivity|]. split; [reflexivity|]. split; [reflexivity|].
  split; [exact Hne | exact Hmem].
Defined.

Lemma field_insert (config : gmap string jsval) (k : string) (v : jsval) :
  field (<[k := v]> config) k = v.
Proof. unfold field. now rewrite lookup_insert_eq. Qed.

Lemma includes_true (outputs : list string) (v : jsval) :
  includes outputs v = true -> exists name, v = JStr name /\ name ∈ outputs.
Proof.
  destruct v as [| n | name]; simpl; try discriminate.
  intros H. apply bool_decide_eq_true in H. eauto.
Qed.

Lemma selected_in_outputs (outputs : list string) :
  outputs <> [] -> selectedMidiDevice outputs ∈ outputs.
Proof. destruct outputs; [congruence|]. intros _. simpl. apply list_elem_of_here. Qed.

Lemma load_config_object (strict : bool) (c : gmap string jsval) (outputs : list string) :
  exists config,
    load_config strict (Stored c) outputs = Some (config, Stored config) /\
    (exists name,
        field config "MIDI_OUTPUT_NAME" = JStr name /\
        (name ∈ outputs \/ (outputs = [] /\ name = "")) /\
        (forall opens, outputs <> [] ->
           fst (init_midi name outputs opens)
             = if opens name then Some (Device name) else None)) /\
    (forall k, k <> "MIDI_OUTPUT_NAME" -> config !! k = c !! k) /\
    load_config strict (Stored config) outputs = Some (config, Stored config).
Proof.
  unfold load_config.
  destruct (negb (truthy (field c "MIDI_OUTPUT_NAME"))
            || negb (includes outputs (field c "MIDI_OUTPUT_NAME"))) eqn:E.
  - set (first_name := selectedMidiDevice outputs).
    assert (Hc : match outputs with
                 | name :: _ => <["MIDI_OUTPUT_NAME" := JStr name]> c
                 | [] => <["MIDI_OUTPUT_NAME" := JStr ""]> c
                 end = <["MIDI_OUTPUT_NAME" := JStr first_name]> c)
      by now destruct outputs.
    rewrite Hc. exists (<["MIDI_OUTPUT_NAME" := JStr first_name]> c).
    split; [reflexivity|]. split; [|split].
    + exists first_name. rewrite field_insert. split; [reflexivity|]. split.
      * destruct outputs as [|d ds]; [now right | left; apply list_elem_of_here].
      * intros opens Hne. destruct outputs as [|d ds]; [congruence|].
        subst first_name. simpl. unfold init_midi.
        destruct (negb (String.eqb d "") && bool_decide (d ∈ d :: ds));
          unfold open_midi; now destruct (opens d).
    + intros k Hk. now rewrite lookup_insert_ne.
    + rewrite field_insert.
      destruct (negb (truthy (JStr first_name))
                || negb (includes outputs (JStr first_name))).
      * assert (Hc' : match outputs with
                      | name :: _ =>
                          <["MIDI_OUTPUT_NAME" := JStr name]>
                            (<["MIDI_OUTPUT_NAME" := JStr first_name]> c)
                      | [] =>
                          <["MIDI_OUTPUT_NAME" := JStr ""]>
                            (<["MIDI_OUTPUT_NAME" := JStr first_name]> c)
                      end = <["MIDI_OUTPUT_NAME" := JStr first_name]> c)
          by (destruct outputs; subst first_name; simpl; apply insert_insert_eq).
        now rewrite Hc'.
      * reflexivity.
  - exists c. apply orb_false_iff in E as [Et Ei].
    apply negb_false_iff in Et, Ei.
    destruct (includes_true _ _ Ei) as (name & Hname & Hin).
    split; [reflexivity|]. split; [|split].
    + exists name. split; [exact Hname|]. split; [now left|].
      intros opens _. unfold init_midi.
      rewrite Hname in Et. simpl in Et.
      rewrite Et, (bool_decide_eq_true_2 _ Hin). simpl.
      unfold open_midi. now destruct (opens name).
    + reflexivity.
    + now rewrite Et, Ei.
Qed.



(** ** Splitting, and the arguments of the outbound message *)

Lemma split_length (c : ascii) (s : string) :
  length (Str.split c s) = S (count_char c s).
Proof.
  induction s as [|a s IH]; simpl; [reflexivity|].
  destruct (Ascii.eqb a c); simpl; [now rewrite IH|].
  destruct (Str.split c s) as [|w ws]; simpl in *; [discriminate | exact IH].
Qed.

(** How many arguments go out.  With an [osc_out_args] in force, every
    space separates two arguments: n spaces give n + 1 arguments, so a
    doubled or trailing space adds an argument (an empty string).  When the
    received arguments are forwarded, there are as many as were
    received. *)
Theorem outbound_argument_count (mapping : Mapping) (args : list jsval) :
  let out := field mapping "osc_out_args" in
  length (finalArgs mapping args) =
    if is_defined out && negb (String.eqb (Str.trim (ToString out)) "")
    then S (count_char " " (ToString out))
    else length args.
Proof.
  cbv zeta. unfold finalArgs.
  destruct (is_defined _ && negb _); rewrite length_map; [apply split_length | reflexivity].
Qed.

(** A doubled space in [osc_out_args] sends an empty string between its
    neighbours. *)
Example doubled_space_argument :
  finalArgs {[ "osc_out_args" := JStr "1  2" ]} []
    = [FloatArg (Dec 1 0); PlainArg (JStr ""); FloatArg (Dec 2 0)].
Proof. reflexivity. Qed.

(** ** The view *)

Lemma remove_quotes_clean (s : string) : count_char quote (remove_quotes s) = O.
Proof.
  induction s as [|a s IH]; simpl; [reflexivity|].
  destruct (Ascii.eqb a quote) eqn:E; simpl; [exact IH | now rewrite E].
Qed.

Lemma clean_cells (cells : list string) :
  Forall (fun c => count_char quote c = O) (map clean_cell cells).
Proof.
  apply Forall_forall. intros c Hc. apply list_elem_of_In in Hc.
  apply in_map_iff in Hc as (x & <- & _). apply remove_quotes_clean.
Qed.

(** No double quote survives [parseCsv]: neither a header nor a cell of a
    data row contains one, whatever the text. *)
Theorem parseCsv_strips_quotes (csvText : string) :
  Forall (fun h => count_char quote h = O) (headers (parseCsv csvText)) /\
  Forall (Forall (fun c => count_char quote c = O)) (data (parseCsv csvText)).
Proof.
  unfold parseCsv. destruct (Str.split newline (Str.trim csvText)) as [|l ls]; simpl.
  - split; constructor.
  - split; [apply clean_cells|].
    apply Forall_forall. intros row Hrow. apply list_elem_of_In in Hrow.
    apply in_map_iff in Hrow as (x & <- & _). apply clean_cells.
Qed.

(** The shape of what [parseCsv] returns.  There is always a header row
    (the test for an empty list of lines never fires: an empty or blank
    text gives the one header "" and no data); there is one data row per
    line break of the trimmed text; the header row has one cell more than
    the first line has commas; and every data row has at least one cell,
    with no check against the number of headers. *)
Theorem parseCsv_shape (csvText : string) :
  headers (parseCsv csvText) <> [] /\
  length (data (parseCsv csvText)) = count_char newline (Str.trim csvText) /\
  (exists first_line others,
      Str.split newline (Str.trim csvText) = first_line :: others /\
      length (headers (parseCsv csvText)) = S (count_char comma first_line)) /\
  Forall (fun row => row <> []) (data (parseCsv csvText)) /\
  (Str.trim csvText = "" -> parseCsv csvText = {| headers := [""]; data := [] |}).
Proof.
  unfold parseCsv. pose proof (split_length newline (Str.trim csvText)) as Hlen.
  destruct (Str.split newline (Str.trim csvText)) as [|l ls] eqn:E; [discriminate|].
  simpl in *. split; [|split; [|split; [|split]]].
  - pose proof (split_length comma l) as H.
    destruct (Str.split comma l); [discriminate | discriminate].
  - rewrite length_map. lia.
  - exists l, ls. split; [reflexivity|]. now rewrite length_map, split_length.
  - apply Forall_forall. intros row Hrow. apply list_elem_of_In in Hrow.
    apply in_map_iff in Hrow as (x & <- & _).
    pose proof (split_length comma x) as H.
    destruct (Str.split comma x); [discriminate | discriminate].
  - intros Ht. rewrite Ht in E. simpl in E. now injection E as <- <-.
Qed.

Lemma parseCsv_shape_witness :
  Str.trim "  " = "" /\
  parseCsv "  " = {| headers := [""]; data := [] |} /\
  parseCsv "" = {| headers := [""]; data := [] |}.
Proof.
  split; [reflexivity|].
  split; [exact (proj2 (proj2 (proj2 (proj2 (parseCsv_shape "  ")))) eq_refl)
         | exact (proj2 (proj2 (proj2 (proj2 (parseCsv_shape "")))) eq_refl)].
Defined.

Lemma refreshes_app (v : view) (l1 l2 : list (string + string)) :
  refreshes v (l1 ++ l2)%list = refreshes (refreshes v l1) l2.
Proof. apply fold_left_app. Qed.

Lemma refreshes_failures (outcomes : list (string + string)) :
  forall v,
  Forall (fun o => exists error, o = inl error) outcomes ->
  csvData (refreshes v outcomes) = csvData v /\
  csvHeaders (refreshes v outcomes) = csvHeaders v.
Proof.
  induction outcomes as [|o os IH]; intros v H; [now split|].
  inversion H as [|? ? (error & ->) Hos]; subst.
  destruct (IH (loadCsvFile v (inl error)) Hos) as [H1 H2].
  split; [exact H1 | exact H2].
Qed.

(** A failed refresh keeps the last good table.  After any sequence of
    refreshes the rows and headers on display are those parsed from the
    last text that could be read, or the ones the view started with when no
    read succeeded; the loading flag is down after every refresh; and the
    error message is the one of the last refresh when that failed, and
    empty when it succeeded. *)
Theorem refresh_keeps_last_good_table (v : view) (outcomes : list (string + string)) :
  (Forall (fun o => exists error, o = inl error) outcomes ->
   csvData (refreshes v outcomes) = csvData v /\
   csvHeaders (refreshes v outcomes) = csvHeaders v) /\
  (forall before content after,
     outcomes = (before ++ inr content :: after)%list ->
     Forall (fun o => exists error, o = inl error) after ->
     csvData (refreshes v outcomes) = data (parseCsv content) /\
     csvHeaders (refreshes v outcomes) = headers (parseCsv content)) /\
  (outcomes <> [] -> isLoadingCsv (refreshes v outcomes) = false) /\
  (forall before error,
     outcomes = (before ++ [inl error])%list ->
     csvError (refreshes v outcomes) = "Failed to load CSV: " ++ error) /\
  (forall before content,
     outcomes = (before ++ [inr content])%list ->
     csvError (refreshes v outcomes) = "").
Proof.
  split; [apply refreshes_failures|]. split; [|split; [|split]].
  - intros before content after -> Hafter.
    change (before ++ inr content :: after)%list
      with (before ++ [inr content] ++ after)%list.
    rewrite !refreshes_app.
    destruct (refreshes_failures after (refreshes (refreshes v before) [inr content]) Hafter)
      as [-> ->].
    split; reflexivity.
  - intros Hne. destruct (exists_last Hne) as (before & o & ->).
    rewrite refreshes_app. now destruct o.
  - intros before error ->. now rewrite refreshes_app.
  - intros before content ->. now rewrite refreshes_app.
Qed.

Lemma refresh_keeps_last_good_table_witness :
  let shown := {| csvData := [["/a"; "1"]]; csvHeaders := ["osc_in_address"; "osc_in_args"];
                  isLoadingCsv := false; csvError := "" |} in
  let after_failure := refreshes shown [inl "No such file"] in
  csvData after_failure = [["/a"; "1"]] /\
  csvHeaders after_failure = ["osc_in_address"; "osc_in_args"] /\
  csvError after_failure = "Failed to load CSV: No such file" /\
  isLoadingCsv after_failure = false.
Proof.
  cbv zeta.
  destruct (refresh_keeps_last_good_table
              {| csvData := [["/a"; "1"]]; csvHeaders := ["osc_in_address"; "osc_in_args"];
                 isLoadingCsv := false; csvError := "" |}
              [inl "No such file"]) as (Hkeep & _ & Hflag & Herr & _).
  destruct Hkeep as [Hd Hh]; [repeat constructor; eauto|].
  split; [exact Hd|]. split; [exact Hh|].
  split; [exact (Herr [] "No such file" eq_refl) | apply Hflag; discriminate].
Defined.

(** ** The reserved address and the reach of the setlist *)

(** The reserved address has exactly two spellings: a message is taken for
    a setlist update exactly when its address is "/setlist" or
    "/setlist/"; any other spelling (another case, a second slash) goes to
    the table. *)
Theorem reserved_address_spellings (address : string) :
  normalize address = "/setlist" <-> address = "/setlist" \/ address = "/setlist/".
Proof.
  split.
  - intros H. destruct (Str.endsWith address "/") eqn:E.
    + right. apply endsWith_inv in E. unfold normalize in H.
      assert (E' : Str.endsWith address "/" = true)
        by (rewrite E; apply endsWith_snoc).
      rewrite E' in H. rewrite H in E. exact E.
    + left. now rewrite (normalize_no_slash _ E) in H.
  - intros [-> | ->]; reflexivity.
Qed.

Lemma reserved_address_spellings_witness :
  normalize "/setlist/" = "/setlist" /\
  normalize "/setlist//" <> "/setlist" /\
  normalize "/Setlist" <> "/setlist".
Proof.
  split; [exact (proj2 (reserved_address_spellings "/setlist/") (or_intror eq_refl))|].
  split; intros H.
  - apply (proj1 (reserved_address_spellings "/setlist//")) in H.
    destruct H as [H | H]; discriminate H.
  - apply (proj1 (reserved_address_spellings "/Setlist")) in H.
    destruct H as [H | H]; discriminate H.
Defined.

Lemma midi_output_same_setlist (n n' : number) (mapping : Mapping) (args : list jsval)
  (midiOut : option MidiOutput) :
  field mapping "midi_type" <> JStr "qc_preset" \/
  is_defined (field mapping "setlist") = true ->
  midi_output n mapping args midiOut = midi_output n' mapping args midiOut.
Proof.
  intros H. unfold midi_output. destruct midiOut; [|reflexivity].
  destruct H as [H | H].
  - now rewrite (is_string_false _ _ H).
  - now rewrite H.
Qed.

(** What the current setlist can change.  The OSC output of a message
    never depends on it; the MIDI output and the way the handler ends
    depend on it only when the resolved rule is a qc_preset rule without a
    [setlist] of its own. *)
Theorem setlist_reach (s : session) (n : number) (address : string)
  (args : list jsval) (midiOut : option MidiOutput) :
  normalize address <> "/setlist" ->
  let s' := {| mappings := mappings s; currentSetlist := n |} in
  osc_of (trace_of (handleOscMessage s address args midiOut))
    = osc_of (trace_of (handleOscMessage s' address args midiOut)) /\
  (forall mapping,
     resolve (mappings s) (normalize address) args = Some mapping ->
     field mapping "midi_type" <> JStr "qc_preset" \/
     is_defined (field mapping "setlist") = true ->
     midi_of (trace_of (handleOscMessage s address args midiOut))
       = midi_of (trace_of (handleOscMessage s' address args midiOut)) /\
     completion_after (handleOscMessage s address args midiOut)
       = completion_after (handleOscMessage s' address args midiOut)) /\
  (resolve (mappings s) (normalize address) args = None ->
   trace_of (handleOscMessage s address args midiOut)
     = trace_of (handleOscMessage s' address args midiOut)).
Proof.
  intros Hn s'. split; [|split].
  - destruct (resolve (mappings s) (normalize address) args) as [mapping|] eqn:Hr.
    + rewrite (handle_resolved_osc s _ _ _ _ Hn Hr).
      now rewrite (handle_resolved_osc s' _ _ _ mapping Hn Hr).
    + rewrite (handle_unresolved s _ _ _ Hn Hr).
      now rewrite (handle_unresolved s' _ _ _ Hn Hr).
  - intros mapping Hr H.
    rewrite (handle_resolved s _ _ _ _ Hn Hr).
    rewrite (handle_resolved s' _ _ _ mapping Hn Hr).
    unfold completion_after, trace_of. simpl.
    now rewrite (midi_output_same_setlist (currentSetlist s) n mapping args midiOut H).
  - intros Hr. rewrite (handle_unresolved s _ _ _ Hn Hr).
    now rewrite (handle_unresolved s' _ _ _ Hn Hr).
Qed.

Lemma setlist_reach_witness :
  let s := {| mappings := [preset_rule_own; cc_rule]; currentSetlist := of_Z 0 |} in
  let s' := {| mappings := [preset_rule_own; cc_rule]; currentSetlist := of_Z 9 |} in
  (normalize "/preset" <> "/setlist" /\
   resolve (mappings s) (normalize "/preset") [] = Some preset_rule_own /\
   is_defined (field preset_rule_own "setlist") = true) /\
  midi_of (trace_of (handleOscMessage s "/preset" [] (Some (Device "QC"))))
    = midi_of (trace_of (handleOscMessage s' "/preset" [] (Some (Device "QC")))).
Proof.
  cbv zeta.
  assert (Hn : normalize "/preset" <> "/setlist") by (vm_compute; discriminate).
  split; [split; [exact Hn | split; reflexivity]|].
  exact (proj1 (proj1 (proj2 (setlist_reach
           {| mappings := [preset_rule_own; cc_rule]; currentSetlist := of_Z 0 |}
           (of_Z 9) "/preset" [] (Some (Device "QC")) Hn))
         preset_rule_own eq_refl (or_intror eq_refl))).
Defined.
